(** * Tetris: event-sourced engine, policy validator and agent loop

    A shallow embedding of [tetris_engine.py], [game_policy_validator.py]
    and [agents/tetris_agent.py], with the properties of the session state
    machine stated over it.

    Python integers are [Z]; lists are [list]; dictionaries with string
    keys are [gmap string _]; an exception is the [Raise] branch of
    [result]. *)

From Stdlib Require Import ZArith Lia.
From stdpp Require Import base option list gmap strings pretty sorting.

Local Open Scope Z_scope.

(** ** Exceptions *)

Inductive exn : Set :=
| IndexError
| KeyError
| TypeError
| AppendRejected.

Inductive result (A : Type) : Type :=
| Ok (a : A)
| Raise (e : exn).
Arguments Ok {A} a.
Arguments Raise {A} e.

Definition bind {A B} (m : result A) (k : A -> result B) : result B :=
  match m with
  | Ok a => k a
  | Raise e => Raise e
  end.

Notation "'let!' x ':=' m 'in' k" := (bind m (fun x => k))
  (at level 10, x pattern, m at level 100, k at level 200).

(** ** Values stored in event payloads (the Python objects that occur there) *)

Inductive value : Type :=
| VNone
| VBool (b : bool)
| VInt (n : Z)
| VStr (s : string)
| VPos (p : Z * Z)
| VList (l : list Z).

#[global] Instance value_eq_dec : EqDecision value.
Proof. solve_decision. Defined.

(** An event payload is a [dict] with string keys. *)
Abbreviation payload := (gmap string value).

(** ** tetris_engine.py *)

Inductive TetrisAction : Set :=
| SPAWN_PIECE
| MOVE_LEFT
| MOVE_RIGHT
| MOVE_DOWN
| ROTATE_CW
| ROTATE_CCW
| HARD_DROP
| LINE_CLEAR
| GAME_OVER.

#[global] Instance TetrisAction_eq_dec : EqDecision TetrisAction.
Proof. solve_decision. Defined.

(** [TetrisAction.value] *)
Definition action_value (a : TetrisAction) : string :=
  match a with
  | SPAWN_PIECE => "SPAWN_PIECE"
  | MOVE_LEFT => "MOVE_LEFT"
  | MOVE_RIGHT => "MOVE_RIGHT"
  | MOVE_DOWN => "MOVE_DOWN"
  | ROTATE_CW => "ROTATE_CW"
  | ROTATE_CCW => "ROTATE_CCW"
  | HARD_DROP => "HARD_DROP"
  | LINE_CLEAR => "LINE_CLEAR"
  | GAME_OVER => "GAME_OVER"
  end.

(** The seven pieces [I O T S Z J L]; the constructors carry a prefix
    because the bare letters are taken by [nat] and [Z]. *)
Inductive Tetromino : Set :=
| Piece_I
| Piece_O
| Piece_T
| Piece_S
| Piece_Z
| Piece_J
| Piece_L.

#[global] Instance Tetromino_eq_dec : EqDecision Tetromino.
Proof. solve_decision. Defined.

(** [Tetromino.value] *)
Definition piece_value (p : Tetromino) : string :=
  match p with
  | Piece_I => "I"
  | Piece_O => "O"
  | Piece_T => "T"
  | Piece_S => "S"
  | Piece_Z => "Z"
  | Piece_J => "J"
  | Piece_L => "L"
  end.

(** Block offsets [(dr, dc)] at rotation state 0. *)
Definition SHAPES (p : Tetromino) : list (Z * Z) :=
  match p with
  | Piece_I => [(0, 0); (0, 1); (0, 2); (0, 3)]
  | Piece_O => [(0, 0); (0, 1); (1, 0); (1, 1)]
  | Piece_T => [(0, 1); (1, 0); (1, 1); (1, 2)]
  | Piece_S => [(0, 1); (0, 2); (1, 0); (1, 1)]
  | Piece_Z => [(0, 0); (0, 1); (1, 1); (1, 2)]
  | Piece_J => [(0, 0); (1, 0); (1, 1); (1, 2)]
  | Piece_L => [(0, 2); (1, 0); (1, 1); (1, 2)]
  end.

(** A board cell is [None] or the tag of the piece locked there. *)
Abbreviation cell := (option string).
Abbreviation board_t := (list (list cell)).

Record GameState : Type := mkGameState {
  board : board_t;
  current_piece : option Tetromino;
  current_pos : Z * Z;
  current_rotation : Z;
  score : Z;
  lines_cleared : Z;
  game_over : bool;
  move_count : Z
}.

(** [range(n)] *)
Definition range (n : Z) : list Z := Z.of_nat <$> seq 0 (Z.to_nat n).

(** [GameState.new_game(rows, cols)] *)
Definition new_game (rows cols : Z) : GameState :=
  {| board := (fun _ => (fun _ => None) <$> range cols) <$> range rows;
     current_piece := None;
     current_pos := (0, 3);
     current_rotation := 0;
     score := 0;
     lines_cleared := 0;
     game_over := false;
     move_count := 0 |}.

(** One quarter turn of the block offsets. *)
Definition rotate_blocks (blocks : list (Z * Z)) : list (Z * Z) :=
  (fun b => (b.2, - b.1)) <$> blocks.

(** [TetrisEngine._get_piece_blocks]: the quarter turn is applied
    [range(rotation)] times. *)
Definition get_piece_blocks (piece : Tetromino) (rotation : Z) : list (Z * Z) :=
  Nat.iter (Z.to_nat rotation) rotate_blocks (SHAPES piece).

(** The score table of [_lock_piece], read with [points.get(k, 0)]. *)
Definition points_get (k : Z) : Z :=
  match k with
  | 0 => 0
  | 1 => 100
  | 2 => 300
  | 3 => 500
  | 4 => 800
  | _ => 0
  end.

(** [l.pop(i)] on a list, returning the remaining list. *)
Definition list_pop {A} (l : list A) (i : Z) : result (list A) :=
  let n := Z.of_nat (length l) in
  let j := if i <? 0 then n + i else i in
  if (0 <=? j) && (j <? n) then Ok (delete (Z.to_nat j) l) else Raise IndexError.

(** [b[row][col]] for non-negative indices. *)
Definition board_get (b : board_t) (row col : Z) : result cell :=
  match b !! Z.to_nat row with
  | None => Raise IndexError
  | Some r =>
      match r !! Z.to_nat col with
      | None => Raise IndexError
      | Some c => Ok c
      end
  end.

(** [b[row][col] = v] for non-negative indices. *)
Definition board_set (b : board_t) (row col : Z) (v : cell) : result board_t :=
  match b !! Z.to_nat row with
  | None => Raise IndexError
  | Some r =>
      if decide (Z.to_nat col < length r)%nat
      then Ok (<[Z.to_nat row := <[Z.to_nat col := v]> r]> b)
      else Raise IndexError
  end.

(** [all(cell is not None for cell in row)] *)
Definition row_full (r : list cell) : bool := forallb (fun c => bool_decide (c ≠ None)) r.

(** [sorted(l, reverse=True)] *)
Definition descending (x y : Z) : Prop := y ≤ x.

#[global] Instance descending_dec : RelDecision descending.
Proof. intros x y. unfold descending. apply _. Defined.

Definition sorted_reverse (l : list Z) : list Z := merge_sort descending l.

Section Engine.

(** [TetrisEngine(rows, cols)] *)
Variables rows cols : Z.

(** The loop of [_check_collision] over the piece's blocks. *)
Fixpoint collide_blocks (b : board_t) (pos : Z * Z) (blocks : list (Z * Z))
  : result bool :=
  match blocks with
  | [] => Ok false
  | (dr, dc) :: rest =>
      let row := pos.1 + dr in
      let col := pos.2 + dc in
      if (row <? 0) || (row >=? rows) || (col <? 0) || (col >=? cols)
      then Ok true
      else
        let! c := board_get b row col in
        match c with
        | Some _ => Ok true
        | None => collide_blocks b pos rest
        end
  end.

(** [TetrisEngine._check_collision] *)
Definition check_collision (st : GameState) : result bool :=
  match current_piece st with
  | None => Ok false
  | Some p =>
      collide_blocks (board st) (current_pos st)
        (get_piece_blocks p (current_rotation st))
  end.

(** [TetrisEngine.spawn_piece]; [piece] is the outcome of
    [random.choice(list(Tetromino))]. *)
Definition spawn_piece (piece : Tetromino) (st : GameState)
  : result (GameState * payload) :=
  let new_state :=
    {| board := board st;
       current_piece := Some piece;
       current_pos := (0, 3);
       current_rotation := 0;
       score := score st;
       lines_cleared := lines_cleared st;
       game_over := game_over st;
       move_count := move_count st |} in
  let! blocked := check_collision new_state in
  let go := if blocked then true else game_over new_state in
  let new_state :=
    {| board := board new_state;
       current_piece := current_piece new_state;
       current_pos := current_pos new_state;
       current_rotation := current_rotation new_state;
       score := score new_state;
       lines_cleared := lines_cleared new_state;
       game_over := go;
       move_count := move_count new_state |} in
  let event : payload :=
    {[ "action" := VStr (action_value SPAWN_PIECE);
       "piece" := VStr (piece_value piece);
       "position" := VPos (current_pos new_state);
       "game_over" := VBool (game_over new_state) ]} in
  Ok (new_state, event).

(** The first loop of [_lock_piece]: write the piece's in-bounds blocks. *)
Fixpoint place_blocks (tag : string) (pos : Z * Z) (blocks : list (Z * Z))
    (b : board_t) : result board_t :=
  match blocks with
  | [] => Ok b
  | (dr, dc) :: rest =>
      let row := pos.1 + dr in
      let col := pos.2 + dc in
      if (0 <=? row) && (row <? rows) && (0 <=? col) && (col <? cols)
      then let! b' := board_set b row col (Some tag) in place_blocks tag pos rest b'
      else place_blocks tag pos rest b
  end.

(** The second loop: indices of the fully occupied rows, ascending. *)
Fixpoint scan_lines (b : board_t) (idx : list Z) : result (list Z) :=
  match idx with
  | [] => Ok []
  | row :: rest =>
      match b !! Z.to_nat row with
      | None => Raise IndexError
      | Some r =>
          let! ls := scan_lines b rest in
          Ok (if row_full r then row :: ls else ls)
      end
  end.

(** The third loop: for each line, [pop(line)] then [insert(0, [None] * cols)]. *)
Fixpoint clear_lines (lines : list Z) (b : board_t) : result board_t :=
  match lines with
  | [] => Ok b
  | line :: rest =>
      let! b' := list_pop b line in
      clear_lines rest (replicate (Z.to_nat cols) None :: b')
  end.

(** [TetrisEngine._lock_piece] *)
Definition lock_piece (st : GameState) : result (GameState * payload) :=
  match current_piece st with
  | None => Raise KeyError
  | Some p =>
      let! merged := place_blocks (piece_value p) (current_pos st)
                 (get_piece_blocks p (current_rotation st)) (board st) in
      let! lines_to_clear := scan_lines merged (range rows) in
      let! new_board := clear_lines (sorted_reverse lines_to_clear) merged in
      let line_count := Z.of_nat (length lines_to_clear) in
      let new_state :=
        {| board := new_board;
           current_piece := None;
           current_pos := (0, 3);
           current_rotation := 0;
           score := score st + points_get line_count;
           lines_cleared := lines_cleared st + line_count;
           game_over := game_over st;
           move_count := move_count st |} in
      let event : payload :=
        {[ "action" := VStr "PIECE_LOCKED";
           "piece" := VStr (piece_value p);
           "position" := VPos (current_pos st);
           "lines_cleared" := VInt line_count;
           "cleared_rows" := VList lines_to_clear;
           "points_earned" := VInt (points_get line_count);
           "total_score" := VInt (score new_state) ]} in
      Ok (new_state, event)
  end.

(** [not state.current_piece or state.game_over] *)
Definition inactive (st : GameState) : bool :=
  match current_piece st with
  | None => true
  | Some _ => game_over st
  end.

Definition with_pos (st : GameState) (pos : Z * Z) (mc : Z) : GameState :=
  {| board := board st;
     current_piece := current_piece st;
     current_pos := pos;
     current_rotation := current_rotation st;
     score := score st;
     lines_cleared := lines_cleared st;
     game_over := game_over st;
     move_count := mc |}.

Definition with_rotation (st : GameState) (rot : Z) (mc : Z) : GameState :=
  {| board := board st;
     current_piece := current_piece st;
     current_pos := current_pos st;
     current_rotation := rot;
     score := score st;
     lines_cleared := lines_cleared st;
     game_over := game_over st;
     move_count := mc |}.

Definition with_score (st : GameState) (sc : Z) : GameState :=
  {| board := board st;
     current_piece := current_piece st;
     current_pos := current_pos st;
     current_rotation := current_rotation st;
     score := sc;
     lines_cleared := lines_cleared st;
     game_over := game_over st;
     move_count := move_count st |}.

(** The candidate position of [move], [None] for the [else] branch. *)
Definition move_target (pos : Z * Z) (action : TetrisAction) : option (Z * Z) :=
  match action with
  | MOVE_LEFT => Some (pos.1, pos.2 - 1)
  | MOVE_RIGHT => Some (pos.1, pos.2 + 1)
  | MOVE_DOWN => Some (pos.1 + 1, pos.2)
  | _ => None
  end.

(** [TetrisEngine.move]; the event is [None] for a no-op. *)
Definition move (st : GameState) (action : TetrisAction)
  : result (GameState * option payload) :=
  if inactive st then Ok (st, None)
  else
    match move_target (current_pos st) action with
    | None => Ok (st, None)
    | Some new_pos =>
        let new_state := with_pos st new_pos (move_count st + 1) in
        let! blocked := check_collision new_state in
        if blocked then
          if decide (action = MOVE_DOWN)
          then let! (s, ev) := lock_piece st in Ok (s, Some ev)
          else Ok (st, None)
        else
          let event : payload :=
            {[ "action" := VStr (action_value action);
               "from" := VPos (current_pos st);
               "to" := VPos new_pos;
               "move_number" := VInt (move_count new_state) ]} in
          Ok (new_state, Some event)
    end.

(** [TetrisEngine.rotate] *)
Definition rotate (st : GameState) (clockwise : bool)
  : result (GameState * option payload) :=
  if inactive st then Ok (st, None)
  else
    let new_rotation :=
      (current_rotation st + (if clockwise then 1 else -1)) `mod` 4 in
    let new_state := with_rotation st new_rotation (move_count st + 1) in
    let! blocked := check_collision new_state in
    if blocked then Ok (st, None)
    else
      let event : payload :=
        {[ "action" := VStr (action_value (if clockwise then ROTATE_CW else ROTATE_CCW));
           "from_rotation" := VInt (current_rotation st);
           "to_rotation" := VInt new_rotation;
           "move_number" := VInt (move_count new_state) ]} in
      Ok (new_state, Some event).

(** The [while True] loop of [hard_drop].  [fuel] bounds the number of
    iterations; [None] means the bound was reached before the loop
    left through [break]. *)
Fixpoint drop_loop (fuel : nat) (current_state : GameState) (drop_distance : Z)
  : option (result (GameState * Z)) :=
  match fuel with
  | O => None
  | S fuel' =>
      let test_state :=
        with_pos current_state
          ((current_pos current_state).1 + 1, (current_pos current_state).2)
          (move_count current_state) in
      match check_collision test_state with
      | Raise e => Some (Raise e)
      | Ok true => Some (Ok (current_state, drop_distance))
      | Ok false => drop_loop fuel' test_state (drop_distance + 1)
      end
  end.

(** [TetrisEngine.hard_drop] *)
Definition hard_drop (fuel : nat) (st : GameState)
  : option (result (GameState * option payload)) :=
  if inactive st then Some (Ok (st, None))
  else
    r ← drop_loop fuel st 0;
    Some (
      let! (current_state, drop_distance) := r in
      let! (locked_state, lock_event) := lock_piece current_state in
      let event : payload :=
        {[ "action" := VStr (action_value HARD_DROP);
           "from" := VPos (current_pos st);
           "to" := VPos (current_pos current_state);
           "drop_distance" := VInt drop_distance;
           "bonus_points" := VInt (drop_distance * 2) ]} in
      Ok (with_score locked_state (score locked_state + drop_distance * 2),
          Some event)).

End Engine.

(** ** game_policy_validator.py *)

Record PolicyResult : Type := mkPolicyResult {
  approved : bool;
  reason : option string;
  penalty_points : Z;
  warning : option string
}.

(** [PolicyResult(approved=True)] and [PolicyResult(approved=False, reason, penalty_points)] *)
Definition approve : PolicyResult :=
  {| approved := true; reason := None; penalty_points := 0; warning := None |}.

Definition reject (why : string) (penalty : Z) : PolicyResult :=
  {| approved := false; reason := Some why; penalty_points := penalty; warning := None |}.

(** [self.policies] *)
Record Policies : Type := mkPolicies {
  max_moves_per_piece : Z;
  max_consecutive_rotations : Z;
  max_same_action_streak : Z;
  max_backtrack_moves : Z;
  bonus_fraud_threshold : Z
}.

(** The limits set by [GamePolicyValidator.__init__]. *)
Definition default_policies : Policies := mkPolicies 50 10 5 3 1000.

(** [TENANT_POLICIES] *)
Definition arcade_mode : Policies := mkPolicies 30 5 3 2 500.
Definition casual_mode : Policies := mkPolicies 100 20 10 5 2000.
Definition competitive_mode : Policies := mkPolicies 20 3 2 0 300.

Definition TENANT_POLICIES : gmap string Policies :=
  {[ "arcade_mode" := arcade_mode;
     "casual_mode" := casual_mode;
     "competitive_mode" := competitive_mode ]}.

(** [get_policy_validator(tenant_id, mode)], reduced to the limits it installs. *)
Definition get_policy_validator (mode : string) : Policies :=
  default arcade_mode (TENANT_POLICIES !! mode).

(** [event.get("action")]; a missing key reads as Python's [None]. *)
Definition get_action (event : payload) : value := default VNone (event !! "action").

(** [v in actions] for a list of strings. *)
Definition value_in (v : value) (actions : list string) : bool :=
  bool_decide (v ∈ VStr <$> actions).

(** [d.get(key)] for a dictionary from strings to strings; a list is
    unhashable and cannot be looked up. *)
Definition dict_get (d : list (string * string)) (key : value) : result value :=
  match key with
  | VList _ => Raise TypeError
  | VStr s =>
      Ok (match list_find (fun kv => kv.1 = s) d with
          | Some (_, kv) => VStr kv.2
          | None => VNone
          end)
  | _ => Ok VNone
  end.

(** [l[i]] with Python's negative indices. *)
Definition list_index {A} (l : list A) (i : Z) : result A :=
  let n := Z.of_nat (length l) in
  let j := if i <? 0 then n + i else i in
  if (0 <=? j) && (j <? n)
  then match l !! Z.to_nat j with Some x => Ok x | None => Raise IndexError end
  else Raise IndexError.

(** [range(a, b)] *)
Definition range_from (a b : Z) : list Z := (fun k => a + k) <$> range (b - a).

Definition MOVE_ACTIONS : list string :=
  ["MOVE_LEFT"; "MOVE_RIGHT"; "MOVE_DOWN"; "ROTATE_CW"; "ROTATE_CCW"]%string.

(** The loop of [_count_moves_for_current_piece] over [reversed(history)]. *)
Fixpoint count_moves_loop (events : list payload) (moves : Z) : Z :=
  match events with
  | [] => moves
  | event :: rest =>
      if bool_decide (get_action event = VStr "SPAWN_PIECE") then moves
      else count_moves_loop rest
             (if value_in (get_action event) MOVE_ACTIONS then moves + 1 else moves)
  end.

Definition count_moves_for_current_piece (history : list payload) : Z :=
  count_moves_loop (reverse history) 0.

(** The loop of [_count_consecutive_actions] over [reversed(history)]. *)
Fixpoint count_consecutive_loop (events : list payload) (actions : list string)
    (count : Z) : Z :=
  match events with
  | [] => count
  | event :: rest =>
      if value_in (get_action event) actions
      then count_consecutive_loop rest actions (count + 1)
      else count
  end.

Definition count_consecutive_actions (history : list payload) (actions : list string) : Z :=
  count_consecutive_loop (reverse history) actions 0.

(** The [opposites] table of [_is_backtrack_move]. *)
Definition opposites_all : list (string * string) :=
  [("MOVE_LEFT", "MOVE_RIGHT"); ("MOVE_RIGHT", "MOVE_LEFT");
   ("ROTATE_CW", "ROTATE_CCW"); ("ROTATE_CCW", "ROTATE_CW")]%string.

(** The [opposites] table of [_count_backtrack_moves]. *)
Definition opposites_moves : list (string * string) :=
  [("MOVE_LEFT", "MOVE_RIGHT"); ("MOVE_RIGHT", "MOVE_LEFT")]%string.

(** [_is_backtrack_move] *)
Definition is_backtrack_move (action : string) (history : list payload) : result bool :=
  match history with
  | [] => Ok false
  | _ =>
      let! last_event := list_index history (-1) in
      let last_action := get_action last_event in
      let! opp := dict_get opposites_all last_action in
      Ok (bool_decide (opp = VStr action))
  end.

(** The body of the loop of [_count_backtrack_moves]. *)
Definition backtrack_step (history : list payload) (i : Z) (backtrack_count : Z)
  : result Z :=
  let! prev_event := list_index history (- i - 1) in
  let! curr_event := list_index history (- i) in
  let prev_action := get_action prev_event in
  let curr_action := get_action curr_event in
  let! opp := dict_get opposites_moves prev_action in
  Ok (if bool_decide (opp = curr_action) then backtrack_count + 1 else backtrack_count).

Fixpoint backtrack_loop (history : list payload) (idx : list Z) (backtrack_count : Z)
  : result Z :=
  match idx with
  | [] => Ok backtrack_count
  | i :: rest =>
      let! c := backtrack_step history i backtrack_count in
      backtrack_loop history rest c
  end.

(** [_count_backtrack_moves] *)
Definition count_backtrack_moves (history : list payload) : result Z :=
  backtrack_loop history
    (range_from 1 (Z.min (Z.of_nat (length history)) 20)) 0.

(** [str(n)] for an integer, as the f-strings print it. *)
Definition str (n : Z) : string := pretty n.

(** [GamePolicyValidator.validate_move]; [current_state] is not read. *)
Definition validate_move (policies : Policies) (action : string)
    (current_state : gmap string Z) (history : list payload) : result PolicyResult :=
  let piece_moves := count_moves_for_current_piece history in
  if bool_decide (max_moves_per_piece policies ≤ piece_moves) then
    Ok (reject ("Max moves per piece exceeded (" +:+ str piece_moves +:+ ")") 50)
  else
    let consecutive_rotations :=
      count_consecutive_actions history ["ROTATE_CW"; "ROTATE_CCW"]%string in
    if bool_decide (action ∈ ["ROTATE_CW"; "ROTATE_CCW"]%string)
       && bool_decide (max_consecutive_rotations policies ≤ consecutive_rotations) then
      Ok (reject ("Rotation spam detected (" +:+ str consecutive_rotations
                  +:+ " consecutive)") 20)
    else
      let streak := count_consecutive_actions history [action] in
      if bool_decide (action ∈ ["MOVE_LEFT"; "MOVE_RIGHT"]%string)
         && bool_decide (max_same_action_streak policies ≤ streak) then
        Ok (reject ("Action spam: " +:+ action +:+ " repeated " +:+ str streak
                    +:+ " times") 10)
      else
        let! backtrack := is_backtrack_move action history in
        if backtrack then
          let! backtrack_count := count_backtrack_moves history in
          if bool_decide (max_backtrack_moves policies ≤ backtrack_count) then
            Ok (reject ("Backtrack limit exceeded (" +:+ str backtrack_count +:+ ")") 15)
          else Ok approve
        else Ok approve.

(** The table of [validate_line_clear], read with [expected_points.get(k, 0)]. *)
Definition expected_points_get (k : Z) : Z :=
  match k with
  | 0 => 0
  | 1 => 100
  | 2 => 300
  | 3 => 500
  | 4 => 800
  | _ => 0
  end.

(** [event.get(key, 0)] read as an integer ([bool] is a subclass of [int]). *)
Definition get_int (event : payload) (key : string) : result Z :=
  match event !! key with
  | None => Ok 0
  | Some (VInt n) => Ok n
  | Some (VBool b) => Ok (if b then 1 else 0)
  | Some _ => Raise TypeError
  end.

(** The loop of [_get_recent_line_clears] over [reversed(history)]. *)
Fixpoint recent_clears_loop (events : list payload) (limit : Z) (clears : list payload)
  : result (list payload) :=
  match events with
  | [] => Ok clears
  | event :: rest =>
      let! hit :=
        if bool_decide (get_action event = VStr "LINE_CLEAR") then Ok true
        else let! n := get_int event "lines_cleared" in Ok (0 <? n) in
      if hit then
        let clears := clears ++ [event] in
        if limit <=? Z.of_nat (length clears) then Ok clears
        else recent_clears_loop rest limit clears
      else recent_clears_loop rest limit clears
  end.

Definition get_recent_line_clears (history : list payload) (limit : Z)
  : result (list payload) :=
  recent_clears_loop (reverse history) limit [].

(** [sum(e.get("points_earned", 0) for e in events)] *)
Fixpoint sum_points (events : list payload) (acc : Z) : result Z :=
  match events with
  | [] => Ok acc
  | e :: rest => let! n := get_int e "points_earned" in sum_points rest (acc + n)
  end.

(** [GamePolicyValidator.validate_line_clear] *)
Definition validate_line_clear (policies : Policies) (lines_cleared points_earned : Z)
    (history : list payload) : result PolicyResult :=
  if bool_decide (points_earned ≠ expected_points_get lines_cleared) then
    Ok (reject ("Invalid scoring: " +:+ str lines_cleared +:+ " lines should give "
                +:+ str (expected_points_get lines_cleared) +:+ " points, got "
                +:+ str points_earned) points_earned)
  else
    let! recent_clears := get_recent_line_clears history 5 in
    if 3 <=? Z.of_nat (length recent_clears) then
      let! total_recent_points := sum_points recent_clears 0 in
      if bonus_fraud_threshold policies <? total_recent_points then
        Ok {| approved := true; reason := None; penalty_points := 0;
              warning := Some "Suspicious scoring pattern detected (fraud review triggered)" |}
      else Ok approve
    else Ok approve.

(** ** agents/tetris_agent.py *)

(** [core_fsm_states.State], the tags the agent writes. *)
Inductive State : Set :=
| RUNNING
| FAILED
| FINALIZED.

#[global] Instance State_eq_dec : EqDecision State.
Proof. solve_decision. Defined.

Record Event : Type := mkEvent {
  event_state : State;
  event_payload : payload
}.

(** A session is named by [(tenant_id, execution_id)]. *)
Abbreviation session_id := (string * string)%type.

(** Invocations of the collaborators, in program order.  The trace is a
    ghost record of which calls [execute_action] makes; the program never
    reads it. *)
Inductive Call : Type :=
| CallGetExecution
| CallValidateMove (action : string)
| CallValidateLineClear (lines_cleared points_earned : Z)
| CallEngineMove (action : TetrisAction)
| CallEngineRotate (clockwise : bool)
| CallEngineHardDrop
| CallEngineSpawn
| CallAppend (tag : State) (p : payload).

Record World : Type := mkWorld {
  store : gmap session_id (list Event);
  calls : list Call
}.

(** Computations of the agent: they read and extend the world, may raise,
    and may stop on the iteration bound of [hard_drop] ([None]). *)
Definition M (A : Type) : Type := World -> option (World * result A).

Definition ret {A} (a : A) : M A := fun w => Some (w, Ok a).

Definition bindM {A B} (m : M A) (k : A -> M B) : M B := fun w =>
  match m w with
  | None => None
  | Some (w', Ok a) => k a w'
  | Some (w', Raise e) => Some (w', Raise e)
  end.

Notation "'do!' x ':=' m 'in' k" := (bindM m (fun x => k))
  (at level 10, x pattern, m at level 100, k at level 200).

Definition lift {A} (r : result A) : M A := fun w => Some (w, r).

Definition lift_fuel {A} (r : option (result A)) : M A := fun w =>
  match r with
  | None => None
  | Some x => Some (w, x)
  end.

Definition record_call (c : Call) : M unit := fun w =>
  Some ({| store := store w; calls := calls w ++ [c] |}, Ok tt).

(** Modelled from the spec: the event log's [read(tenant, session)], which
    returns the session's events in append order
    ([PostgresEventStore.get_execution] is not part of these sources). *)
Definition get_execution (sid : session_id) : M (list Event) := fun w =>
  Some ({| store := store w; calls := calls w ++ [CallGetExecution] |},
        Ok (default [] (store w !! sid))).

(** Modelled from the spec: the event log's [append], which rejects any
    append once a FINALIZED event exists for the session
    ([append_event_safe] is not part of these sources). *)
Definition append_event_safe (sid : session_id) (tag : State) (p : payload) : M unit :=
  fun w =>
    let log := default [] (store w !! sid) in
    let w' := {| store := store w; calls := calls w ++ [CallAppend tag p] |} in
    if bool_decide (Exists (fun e => event_state e = FINALIZED) log)
    then Some (w', Raise AppendRejected)
    else Some ({| store := <[sid := log ++ [mkEvent tag p]]> (store w);
                  calls := calls w' |}, Ok tt).

Record TetrisExecution : Type := mkExecution {
  tenant_id : string;
  execution_id : string;
  game_state : GameState;
  policy_validator : Policies
}.

Definition with_game_state (ex : TetrisExecution) (st : GameState) : TetrisExecution :=
  {| tenant_id := tenant_id ex;
     execution_id := execution_id ex;
     game_state := st;
     policy_validator := policy_validator ex |}.

(** [state.game_over = True] *)
Definition set_game_over (st : GameState) : GameState :=
  {| board := board st;
     current_piece := current_piece st;
     current_pos := current_pos st;
     current_rotation := current_rotation st;
     score := score st;
     lines_cleared := lines_cleared st;
     game_over := true;
     move_count := move_count st |}.

(** The snapshot [current_state_dict] of step 2. *)
Definition state_snapshot (st : GameState) : gmap string Z :=
  {[ "score" := score st;
     "lines_cleared" := lines_cleared st;
     "move_count" := move_count st ]}.

(** [d[key]] *)
Definition dict_item (d : payload) (key : string) : result value :=
  match d !! key with
  | Some v => Ok v
  | None => Raise KeyError
  end.

(** [d.get(key, 0)] where the agent passes the value on as an integer. *)
Definition payload_int (d : payload) (key : string) : result Z :=
  match d !! key with
  | None => Ok 0
  | Some (VInt n) => Ok n
  | Some _ => Raise TypeError
  end.

Section Agent.

(** [TetrisAgent(event_store, tenant_id, mode)]: the constructor fixes the
    engine to 20 rows and 10 columns and installs the validator's
    default limits. *)
Variable agent_tenant_id : string.
Variable agent_mode : string.

Definition engine_rows : Z := 20.
Definition engine_cols : Z := 10.
Definition agent_policy_validator : Policies := default_policies.

(** [TetrisAgent.start_game]; [piece] is the piece the spawn draws. *)
Definition start_game (piece : Tetromino) (execution_id : string) : M TetrisExecution :=
  let game_state := new_game 20 10 in
  do! _ := record_call CallEngineSpawn in
  do! (new_state, spawn_event) := lift (spawn_piece engine_rows engine_cols piece game_state) in
  do! a := lift (dict_item spawn_event "action") in
  do! p := lift (dict_item spawn_event "piece") in
  do! pos := lift (dict_item spawn_event "position") in
  do! _ := append_event_safe (agent_tenant_id, execution_id) RUNNING
             {[ "stage" := VStr "game_start";
                "action" := a;
                "piece" := p;
                "position" := pos;
                "mode" := VStr agent_mode ]} in
  ret {| tenant_id := agent_tenant_id;
         execution_id := execution_id;
         game_state := new_state;
         policy_validator := agent_policy_validator |}.

(** [TetrisAgent._finalize_game] *)
Definition finalize_game (execution : TetrisExecution) (final_state : GameState) : M unit :=
  append_event_safe (tenant_id execution, execution_id execution) FINALIZED
    {[ "stage" := VStr "game_over";
       "action" := VStr "GAME_FINALIZED";
       "final_score" := VInt (score final_state);
       "lines_cleared" := VInt (lines_cleared final_state);
       "move_count" := VInt (move_count final_state);
       "sealed_at" := VStr "2026-02-15T00:00:00Z" ]}.

(** Step 3 of [execute_action]: the engine operation matching the
    action, [None] for the final [else]. *)
Definition apply_game_logic (fuel : nat) (st : GameState) (action : TetrisAction)
  : option (M (GameState * option payload)) :=
  match action with
  | MOVE_LEFT | MOVE_RIGHT | MOVE_DOWN =>
      Some (do! _ := record_call (CallEngineMove action) in
            lift (move engine_rows engine_cols st action))
  | ROTATE_CW | ROTATE_CCW =>
      Some (do! _ := record_call (CallEngineRotate (bool_decide (action = ROTATE_CW))) in
            lift (rotate engine_rows engine_cols st (bool_decide (action = ROTATE_CW))))
  | HARD_DROP =>
      Some (do! _ := record_call CallEngineHardDrop in
            lift_fuel (hard_drop engine_rows engine_cols fuel st))
  | _ => None
  end.

(** Steps 5 and 6 of [execute_action]. *)
Definition commit_event (next_piece : Tetromino) (execution : TetrisExecution)
    (policy_result : PolicyResult) (new_state : GameState) (event_payload : payload)
  : M (TetrisExecution * PolicyResult * option payload) :=
  let sid := (tenant_id execution, execution_id execution) in
  do! _ := append_event_safe sid RUNNING
             (event_payload ∪ {[ "stage" := VStr "game_action";
                                 "action" := get_action event_payload ]}) in
  do! new_state :=
    if bool_decide (get_action event_payload = VStr "PIECE_LOCKED") then
      do! _ := record_call CallEngineSpawn in
      do! (new_state, spawn_event) :=
        lift (spawn_piece engine_rows engine_cols next_piece new_state) in
      do! a := lift (dict_item spawn_event "action") in
      do! p := lift (dict_item spawn_event "piece") in
      do! pos := lift (dict_item spawn_event "position") in
      do! _ := append_event_safe sid RUNNING
                 {[ "stage" := VStr "spawn_piece";
                    "action" := a;
                    "piece" := p;
                    "position" := pos ]} in
      do! _ := if game_over new_state then finalize_game execution new_state else ret tt in
      ret new_state
    else ret new_state in
  ret (with_game_state execution new_state, policy_result, Some event_payload).

(** [TetrisAgent.execute_action]; [next_piece] is the piece a spawn in
    step 6 draws, [fuel] the iteration bound handed to [hard_drop]. *)
Definition execute_action (fuel : nat) (next_piece : Tetromino)
    (execution : TetrisExecution) (action : TetrisAction)
  : M (TetrisExecution * PolicyResult * option payload) :=
  let sid := (tenant_id execution, execution_id execution) in
  (* Step 1 *)
  do! history_events := get_execution sid in
  let history := event_payload <$> history_events in
  (* Step 2 *)
  let current_state_dict := state_snapshot (game_state execution) in
  do! _ := record_call (CallValidateMove (action_value action)) in
  do! policy_result :=
    lift (validate_move (policy_validator execution) (action_value action)
            current_state_dict history) in
  if negb (approved policy_result) then
    do! _ := append_event_safe sid FAILED
               {[ "stage" := VStr "policy_violation";
                  "action" := VStr (action_value action);
                  "reason" := from_option VStr VNone (reason policy_result);
                  "penalty_points" := VInt (penalty_points policy_result) ]} in
    ret (with_game_state execution (set_game_over (game_state execution)),
         policy_result, None)
  else
    (* Step 3 *)
    match apply_game_logic fuel (game_state execution) action with
    | None =>
        ret (execution,
             {| approved := false; reason := Some "Unknown action";
                penalty_points := 0; warning := None |}, None)
    | Some engine_call =>
        do! (new_state, event) := engine_call in
        match event with
        | None =>
            ret (execution,
                 {| approved := false; reason := Some "Invalid move (collision)";
                    penalty_points := 0; warning := None |}, None)
        | Some event_payload =>
            (* Step 4 *)
            if bool_decide (get_action event_payload = VStr "PIECE_LOCKED") then
              do! lines := lift (payload_int event_payload "lines_cleared") in
              do! points := lift (payload_int event_payload "points_earned") in
              do! _ := record_call (CallValidateLineClear lines points) in
              do! line_clear_result :=
                lift (validate_line_clear (policy_validator execution) lines points history) in
              if negb (approved line_clear_result) then
                do! _ := append_event_safe sid FAILED
                           {[ "stage" := VStr "fraud_detected";
                              "action" := VStr "LINE_CLEAR_FRAUD";
                              "reason" := from_option VStr VNone (reason line_clear_result);
                              "revoked_points" := VInt points ]} in
                ret (with_game_state execution (set_game_over (game_state execution)),
                     line_clear_result, None)
              else commit_event next_piece execution policy_result new_state event_payload
            else commit_event next_piece execution policy_result new_state event_payload
        end
    end.

(** The loop of [play_game_example]: submit the moves in order and stop
    at the first one that is not approved. *)
Fixpoint play_moves (fuel : nat) (next_piece : Tetromino)
    (execution : TetrisExecution) (moves : list TetrisAction) : M TetrisExecution :=
  match moves with
  | [] => ret execution
  | mv :: rest =>
      do! (execution, policy_result, event) :=
        execute_action fuel next_piece execution mv in
      if negb (approved policy_result) then ret execution
      else play_moves fuel next_piece execution rest
  end.

End Agent.

(** ** web/tetris_api.py *)

(** What a request handler hands back: a response, an [HTTPException]
    with its status code and detail, or an exception it does not catch. *)
Inductive http_result (A : Type) : Type :=
| Response (a : A)
| HTTPException (status_code : Z) (detail : string)
| Uncaught (e : exn).
Arguments Response {A} a.
Arguments HTTPException {A} status_code detail.
Arguments Uncaught {A} e.

Record GameActionRequest : Type := mkGameActionRequest {
  game_id : string;
  action : string
}.

Record GameStateResponse : Type := mkGameStateResponse {
  response_game_id : string;
  response_execution_id : string;
  response_score : Z;
  response_lines_cleared : Z;
  response_move_count : Z;
  response_game_over : bool;
  response_current_piece : option string;
  response_board : board_t;
  response_message : option string
}.

(** [TetrisAction(value)]: the member with that value, [None] for the
    [ValueError] of a string that is no member's value. *)
Definition TetrisAction_of_value (s : string) : option TetrisAction :=
  snd <$> list_find (fun a => action_value a = s)
            [SPAWN_PIECE; MOVE_LEFT; MOVE_RIGHT; MOVE_DOWN; ROTATE_CW; ROTATE_CCW;
             HARD_DROP; LINE_CLEAR; GAME_OVER].

(** [", ".join(items)] *)
Fixpoint join_comma (items : list string) : string :=
  match items with
  | [] => ""
  | [x] => x
  | x :: rest => x +:+ ", " +:+ join_comma rest
  end.

(** [str(v)], as an f-string prints a payload value. *)
Definition value_str (v : value) : string :=
  match v with
  | VNone => "None"
  | VBool b => if b then "True" else "False"
  | VInt n => str n
  | VStr s => s
  | VPos p => "(" +:+ str p.1 +:+ ", " +:+ str p.2 +:+ ")"
  | VList l => "[" +:+ join_comma (str <$> l) +:+ "]"
  end.

(** The module's [active_games] table and the event store behind it. *)
Record ApiState : Type := mkApiState {
  active_games : gmap string TetrisExecution;
  world : World
}.

(** The [message] of [game_action]. *)
Definition action_message (policy_result : PolicyResult) (event : option payload)
  : result (option string) :=
  if negb (approved policy_result) then
    Ok (Some ("Policy violation: "
              +:+ match reason policy_result with Some r => r | None => "None" end))
  else
    match event with
    | None => Ok None
    | Some ev =>
        if bool_decide (ev = ∅) then Ok None
        else
          let! n := get_int ev "lines_cleared" in
          if 0 <? n then
            Ok (Some ("Line clear! +"
                      +:+ value_str (default (VInt 0) (ev !! "points_earned"))
                      +:+ " points"))
          else Ok None
    end.

(** [game_action(request)]; [fuel] and [next_piece] are handed on to
    [execute_action]. *)
Definition game_action (fuel : nat) (next_piece : Tetromino)
    (request : GameActionRequest) (s : ApiState)
  : option (ApiState * http_result GameStateResponse) :=
  match active_games s !! game_id request with
  | None => Some (s, HTTPException 404 "Game not found")
  | Some execution =>
      if game_over (game_state execution) then
        Some (s, HTTPException 400 "Game is over")
      else
        match TetrisAction_of_value (action request) with
        | None => Some (s, HTTPException 400 ("Invalid action: " +:+ action request))
        | Some act =>
            match execute_action fuel next_piece execution act (world s) with
            | None => None
            | Some (w', Raise e) =>
                Some ({| active_games := active_games s; world := w' |}, Uncaught e)
            | Some (w', Ok (updated_execution, policy_result, event)) =>
                let s' := {| active_games :=
                               <[game_id request := updated_execution]> (active_games s);
                             world := w' |} in
                match action_message policy_result event with
                | Raise e => Some (s', Uncaught e)
                | Ok message =>
                    let st := game_state updated_execution in
                    Some (s', Response
                      {| response_game_id := game_id request;
                         response_execution_id := execution_id updated_execution;
                         response_score := score st;
                         response_lines_cleared := lines_cleared st;
                         response_move_count := move_count st;
                         response_game_over := game_over st;
                         response_current_piece := piece_value <$> current_piece st;
                         response_board := board st;
                         response_message := message |})
                end
            end
        end
  end.

(** * Vocabulary of the properties *)

(** The board has [rows] rows of [cols] cells each. *)
Definition wf_board (rows cols : Z) (b : board_t) : Prop :=
  length b = Z.to_nat rows ∧ Forall (fun r => length r = Z.to_nat cols) b.

(** Number of fully occupied rows of a board. *)
Definition full_row_count (b : board_t) : Z :=
  Z.of_nat (length (filter (fun r => row_full r = true) b)).

(** The line clear as the specification words it: the fully occupied rows
    are removed, as many empty rows are put on top, the other rows keep
    their order. *)
Definition remove_full_rows (cols : Z) (b : board_t) : board_t :=
  replicate (length (filter (fun r => row_full r = true) b)) (replicate (Z.to_nat cols) None)
  ++ filter (fun r => row_full r ≠ true) b.

(** Indices of the fully occupied rows of [l], counted from [s]. *)
Fixpoint full_indices (s : nat) (l : board_t) : list Z :=
  match l with
  | [] => []
  | r :: l' =>
      if row_full r then Z.of_nat s :: full_indices (S s) l' else full_indices (S s) l'
  end.

(** ** Sample positions on the 20 x 10 board *)

Definition empty_row : list cell := replicate 10 None.

(** A row holding one horizontal I piece. *)
Definition marked_row : list cell :=
  [None; None; Some "I"; Some "I"; Some "I"; Some "I"; None; None; None; None]%string.

(** A row that lacks only its two leftmost cells. *)
Definition open_row : list cell := [None; None] ++ replicate 8 (Some "I"%string).

Definition closed_row : list cell := replicate 2 (Some "O"%string) ++ replicate 8 (Some "I"%string).

(** Rows 18 and 19 lack their two leftmost cells, row 17 holds one piece. *)
Definition two_line_board : board_t :=
  replicate 17 empty_row ++ [marked_row; open_row; open_row].

(** An O piece resting in the gap of [two_line_board]. *)
Definition two_line_state : GameState :=
  {| board := two_line_board;
     current_piece := Some Piece_O;
     current_pos := (18, 0);
     current_rotation := 0;
     score := 0;
     lines_cleared := 0;
     game_over := false;
     move_count := 0 |}.

(** A T piece freshly spawned on an empty board. *)
Definition fresh_state : GameState :=
  {| board := board (new_game 20 10);
     current_piece := Some Piece_T;
     current_pos := (0, 3);
     current_rotation := 0;
     score := 0;
     lines_cleared := 0;
     game_over := false;
     move_count := 0 |}.

(** The state with the piece [d] rows further down. *)
Definition shift_down (st : GameState) (d : Z) : GameState :=
  with_pos st ((current_pos st).1 + d, (current_pos st).2) (move_count st).

(** The engine's public operations, for sequences of calls. *)
Inductive EngineOp : Type :=
| OpSpawn (piece : Tetromino)
| OpMove (action : TetrisAction)
| OpRotate (clockwise : bool)
| OpHardDrop.

Definition apply_op (rows cols : Z) (fuel : nat) (op : EngineOp) (st : GameState)
  : option (result GameState) :=
  match op with
  | OpSpawn piece => Some (let! (s, _) := spawn_piece rows cols piece st in Ok s)
  | OpMove action => Some (let! (s, _) := move rows cols st action in Ok s)
  | OpRotate clockwise => Some (let! (s, _) := rotate rows cols st clockwise in Ok s)
  | OpHardDrop =>
      r ← hard_drop rows cols fuel st;
      Some (let! (s, _) := r in Ok s)
  end.

(** The states visited by a sequence of engine calls, in order. *)
Fixpoint run_ops (rows cols : Z) (fuel : nat) (ops : list EngineOp) (st : GameState)
  : option (result (list GameState)) :=
  match ops with
  | [] => Some (Ok [])
  | op :: rest =>
      match apply_op rows cols fuel op st with
      | None => None
      | Some (Raise e) => Some (Raise e)
      | Some (Ok st') =>
          match run_ops rows cols fuel rest st' with
          | None => None
          | Some (Raise e) => Some (Raise e)
          | Some (Ok sts) => Some (Ok (st' :: sts))
          end
      end
  end.

(** Scores along a list of states never go down. *)
Fixpoint scores_nondecreasing (prev : Z) (sts : list GameState) : Prop :=
  match sts with
  | [] => True
  | st :: rest => prev ≤ score st ∧ scores_nondecreasing (score st) rest
  end.

(** The fields [validate_line_clear] reads as numbers hold numbers. *)
Definition numeric_field (event : payload) (key : string) : Prop :=
  match event !! key with
  | None | Some (VInt _) | Some (VBool _) => True
  | Some _ => False
  end.

Definition numeric_history (history : list payload) : Prop :=
  Forall (fun e => numeric_field e "lines_cleared" ∧ numeric_field e "points_earned")
    history.

(** The backtrack count as the specification words it: adjacent pairs of
    opposite actions, of either kind, among the last 20 history entries. *)
Definition opposite_pair (a b : value) : bool :=
  bool_decide ((a, b) ∈ [(VStr "MOVE_LEFT", VStr "MOVE_RIGHT");
                         (VStr "MOVE_RIGHT", VStr "MOVE_LEFT");
                         (VStr "ROTATE_CW", VStr "ROTATE_CCW");
                         (VStr "ROTATE_CCW", VStr "ROTATE_CW")]).

Fixpoint opposite_pairs (actions : list value) : Z :=
  match actions with
  | a :: (b :: _) as rest => (if opposite_pair a b then 1 else 0) + opposite_pairs rest
  | _ => 0
  end.

Definition spec_backtrack_count (history : list payload) : Z :=
  opposite_pairs (get_action <$> drop (length history - 20) history).

(** A history entry that records only its action. *)
Definition action_event (action : string) : payload := {[ "action" := VStr action ]}.

(** A piece was spawned, then turned clockwise, back, and clockwise again. *)
Definition rotation_history : list payload :=
  [action_event "SPAWN_PIECE"; action_event "ROTATE_CW";
   action_event "ROTATE_CCW"; action_event "ROTATE_CW"].

(** ** Vocabulary for the agent *)

(** The six actions a player can submit. *)
Definition player_action (a : TetrisAction) : bool :=
  match a with
  | MOVE_LEFT | MOVE_RIGHT | MOVE_DOWN | ROTATE_CW | ROTATE_CCW | HARD_DROP => true
  | _ => false
  end.

(** The log of a session, and the tag and action of each of its events. *)
Definition session_log (w : World) (sid : session_id) : list Event :=
  default [] (store w !! sid).

Definition log_summary (w : World) (sid : session_id) : list (State * value) :=
  (fun e => (event_state e, get_action (event_payload e))) <$> session_log w sid.

Definition is_engine_call (c : Call) : bool :=
  match c with
  | CallEngineMove _ | CallEngineRotate _ | CallEngineHardDrop | CallEngineSpawn => true
  | _ => false
  end.

Definition is_validate_move (c : Call) : bool :=
  match c with
  | CallValidateMove _ => true
  | _ => false
  end.

(** The calls a computation added to the trace of [w]. *)
Definition new_calls (w w' : World) : list Call := drop (length (calls w)) (calls w').

(** The reply to an action that is not a player action, as C8 words it:
    the call is turned down, the log is as it was, and neither the
    validator nor the engine was called. *)
Definition rejected_untouched (fuel : nat) (next_piece : Tetromino)
    (ex : TetrisExecution) (a : TetrisAction) (w : World) : Prop :=
  ∃ w' ex' pr ev,
    execute_action fuel next_piece ex a w = Some (w', Ok (ex', pr, ev))
    ∧ approved pr = false
    ∧ store w' = store w
    ∧ Forall (fun c => is_validate_move c = false ∧ is_engine_call c = false)
        (new_calls w w').

Definition empty_world : World := {| store := ∅; calls := [] |}.

Definition demo_session : session_id := ("player-001", "game-session-001")%string.

(** Fifty moves of one piece that the engine and the validator accept:
    three rows down, then four clockwise turns and one row down, nine
    times, then two more turns. *)
Definition fifty_moves : list TetrisAction :=
  replicate 3 MOVE_DOWN
  ++ concat (replicate 9 [ROTATE_CW; ROTATE_CW; ROTATE_CW; ROTATE_CW; MOVE_DOWN])
  ++ [ROTATE_CW; ROTATE_CW].

(** A game is started with a T piece and the fifty moves are played. *)
Definition fifty_move_game : M TetrisExecution :=
  do! ex := start_game "player-001" "arcade_mode" Piece_T "game-session-001" in
  play_moves 21 Piece_I ex fifty_moves.

(** A game is started with an O piece, which is moved down [n] times. *)
Definition descent_game (n : nat) : M TetrisExecution :=
  do! ex := start_game "player-001" "arcade_mode" Piece_O "game-session-001" in
  play_moves 21 Piece_T ex (replicate n MOVE_DOWN).

(** What a run of the agent from the empty world leaves behind: the tags
    and actions of the session's log, the engine calls made, and the
    reply of the last call. *)
Record Outcome : Type := mkOutcome {
  out_log : list (State * value);
  out_engine_calls : list Call;
  out_piece : option Tetromino;
  out_game_over : bool;
  out_approved : bool;
  out_reason : option string;
  out_event : option value
}.

Definition outcome (sid : session_id)
    (m : M (TetrisExecution * PolicyResult * option payload)) : option Outcome :=
  match m empty_world with
  | Some (w, Ok (ex, pr, ev)) =>
      Some {| out_log := log_summary w sid;
              out_engine_calls := filter (fun c => is_engine_call c = true) (calls w);
              out_piece := current_piece (game_state ex);
              out_game_over := game_over (game_state ex);
              out_approved := approved pr;
              out_reason := reason pr;
              out_event := get_action <$> ev |}
  | _ => None
  end.

(** Length of the session's log after a run. *)
Definition log_length_after {A} (sid : session_id) (r : option (World * result A)) : nat :=
  match r with
  | Some (w, _) => length (session_log w sid)
  | None => 0
  end.

(** A game starts with an O piece and the player hard-drops it. *)
Definition hard_drop_game : M (TetrisExecution * PolicyResult * option payload) :=
  do! ex := start_game "player-001" "arcade_mode" Piece_O "game-session-001" in
  execute_action 21 Piece_T ex HARD_DROP.

(** ... and then tries to move left. *)
Definition hard_drop_then_left : M (TetrisExecution * PolicyResult * option payload) :=
  do! r := hard_drop_game in
  execute_action 21 Piece_T r.1.1 MOVE_LEFT.

(** The O piece is moved down to its resting row and once more. *)
Definition move_down_lock_game : M (TetrisExecution * PolicyResult * option payload) :=
  do! ex := descent_game 18 in
  execute_action 21 Piece_T ex MOVE_DOWN.

(** After the fifty moves, an action outside the player's six. *)
Definition unknown_action_game : M (TetrisExecution * PolicyResult * option payload) :=
  do! ex := fifty_move_game in
  execute_action 21 Piece_I ex SPAWN_PIECE.

(** ** Vocabulary for the further facts *)

(** [st'] is not behind [st]: no counter went down and a set terminal
    flag is still set. *)
Definition never_behind (st st' : GameState) : Prop :=
  score st ≤ score st'
  ∧ lines_cleared st ≤ lines_cleared st'
  ∧ move_count st ≤ move_count st'
  ∧ (game_over st = true → game_over st' = true).

(** The board cells the active piece covers. *)
Definition piece_cells (st : GameState) : list (Z * Z) :=
  match current_piece st with
  | None => []
  | Some p =>
      (fun b => ((current_pos st).1 + b.1, (current_pos st).2 + b.2))
        <$> get_piece_blocks p (current_rotation st)
  end.

(** The cell lies on the board and is empty. *)
Definition cell_free (rows cols : Z) (b : board_t) (rc : Z * Z) : Prop :=
  0 ≤ rc.1 < rows ∧ 0 ≤ rc.2 < cols ∧ board_get b rc.1 rc.2 = Ok None.

(** The state after [n] accepted moves down. *)
Definition moved_down (st : GameState) (n : nat) : GameState :=
  with_pos st ((current_pos st).1 + Z.of_nat n, (current_pos st).2)
    (move_count st + Z.of_nat n).

(** No history entry has a list as its action (a list cannot be looked up
    in the validator's tables). *)
Definition hashable_actions (history : list payload) : Prop :=
  Forall (fun e => ∀ l, get_action e ≠ VList l) history.

(** The test of [_get_recent_line_clears]: the entry is a LINE_CLEAR
    action or reports a positive number of cleared lines. *)
Definition is_line_clear_event (e : payload) : Prop :=
  get_action e = VStr "LINE_CLEAR" ∨ ∃ n, get_int e "lines_cleared" = Ok n ∧ 0 < n.

(** What the engine answers to a player's action in step 3, and the call
    that is recorded for it. *)
Definition engine_reply (fuel : nat) (st : GameState) (a : TetrisAction)
  : option (result (GameState * option payload)) :=
  match a with
  | MOVE_LEFT | MOVE_RIGHT | MOVE_DOWN => Some (move engine_rows engine_cols st a)
  | ROTATE_CW | ROTATE_CCW =>
      Some (rotate engine_rows engine_cols st (bool_decide (a = ROTATE_CW)))
  | HARD_DROP => hard_drop engine_rows engine_cols fuel st
  | _ => None
  end.

Definition engine_call (a : TetrisAction) : Call :=
  match a with
  | MOVE_LEFT | MOVE_RIGHT | MOVE_DOWN => CallEngineMove a
  | ROTATE_CW | ROTATE_CCW => CallEngineRotate (bool_decide (a = ROTATE_CW))
  | _ => CallEngineHardDrop
  end.

(** The session's log holds no FINALIZED event. *)
Definition not_finalized (w : World) (sid : session_id) : Prop :=
  ¬ Exists (fun e => event_state e = FINALIZED) (session_log w sid).

(** The reply to a move the engine does not carry out. *)
Definition invalid_move_result : PolicyResult :=
  {| approved := false; reason := Some "Invalid move (collision)"%string;
     penalty_points := 0; warning := None |}.

(** From [w] to [w'] the log of session [sid] only grew at its end, the
    logs of the other sessions are as they were, and the trace of calls
    only grew. *)
Definition log_grows (sid : session_id) (w w' : World) : Prop :=
  session_log w sid `prefix_of` session_log w' sid
  ∧ (∀ sid', sid' ≠ sid → store w' !! sid' = store w !! sid')
  ∧ calls w `prefix_of` calls w'.

Definition keeps_log (sid : session_id) {A} (m : M A) : Prop :=
  ∀ w w' r, m w = Some (w', r) → log_grows sid w w'.

(** Sample executions and worlds. *)
Definition wall_execution : TetrisExecution :=
  {| tenant_id := "player-001"; execution_id := "game-session-001";
     game_state := with_pos fresh_state (0, 0) 0;
     policy_validator := default_policies |}.

Definition fresh_execution : TetrisExecution :=
  {| tenant_id := "player-001"; execution_id := "game-session-001";
     game_state := fresh_state; policy_validator := default_policies |}.


Definition streak_world : World :=
  {| store := {[ ("player-001", "game-session-001")%string :=
                   [mkEvent RUNNING (action_event "SPAWN_PIECE");
                    mkEvent RUNNING (action_event "MOVE_LEFT");
                    mkEvent RUNNING (action_event "MOVE_LEFT");
                    mkEvent RUNNING (action_event "MOVE_LEFT")] ]};
     calls := [] |}.

Definition arcade_execution : TetrisExecution :=
  {| tenant_id := "player-001"; execution_id := "game-session-001";
     game_state := with_pos fresh_state (0, 0) 3;
     policy_validator := arcade_mode |}.

(** * Facts about the engine *)

Lemma bind_Ok {A B} (m : result A) (k : A -> result B) (b : B) :
  bind m k = Ok b ↔ ∃ a, m = Ok a ∧ k a = Ok b.
Proof.
  destruct m as [a|e]; simpl; split.
  - intros H. by exists a.
  - by intros (a' & [= <-] & H).
  - discriminate.
  - by intros (a' & [=] & _).
Qed.

Tactic Notation "inv_bind" hyp(H) "as" simple_intropattern(a) ident(Ha) :=
  apply bind_Ok in H; destruct H as (a & Ha & H).

Section EngineFacts.

Variables rows cols : Z.

Lemma wf_board_lookup b i r :
  wf_board rows cols b → b !! i = Some r → length r = Z.to_nat cols.
Proof.
  intros [_ Hall] Hi. rewrite Forall_lookup in Hall. by eapply Hall.
Qed.

Lemma board_get_wf b row col :
  wf_board rows cols b → 0 ≤ row < rows → 0 ≤ col < cols →
  ∃ c, board_get b row col = Ok c.
Proof.
  intros Hwf Hr Hc. unfold board_get.
  destruct (lookup_lt_is_Some_2 b (Z.to_nat row)) as [r Hrow].
  { destruct Hwf as [-> _]. lia. }
  rewrite Hrow.
  destruct (lookup_lt_is_Some_2 r (Z.to_nat col)) as [c Hcol].
  { rewrite (wf_board_lookup _ _ _ Hwf Hrow). lia. }
  rewrite Hcol. by exists c.
Qed.

Lemma collide_blocks_wf b pos blocks :
  wf_board rows cols b → ∃ r, collide_blocks rows cols b pos blocks = Ok r.
Proof.
  intros Hwf. induction blocks as [|[dr dc] rest IH]; simpl; [by eexists|].
  destruct (_ || _) eqn:Hout; [by eexists|].
  repeat (apply orb_false_elim in Hout as [Hout ?]).
  destruct (board_get_wf b (pos.1 + dr) (pos.2 + dc) Hwf) as [c ->]; [lia..|].
  simpl. destruct c; [by eexists | exact IH].
Qed.

Lemma check_collision_wf st :
  wf_board rows cols (board st) → ∃ r, check_collision rows cols st = Ok r.
Proof.
  intros Hwf. unfold check_collision.
  destruct (current_piece st); [by apply collide_blocks_wf | by eexists].
Qed.

Lemma board_set_wf b row col v :
  wf_board rows cols b → 0 ≤ row < rows → 0 ≤ col < cols →
  ∃ b', board_set b row col v = Ok b' ∧ wf_board rows cols b'.
Proof.
  intros Hwf Hr Hc. unfold board_set.
  destruct (lookup_lt_is_Some_2 b (Z.to_nat row)) as [r Hrow].
  { destruct Hwf as [-> _]. lia. }
  rewrite Hrow. pose proof (wf_board_lookup _ _ _ Hwf Hrow) as Hlen.
  rewrite decide_True by lia.
  eexists; split; [done|]. destruct Hwf as [Hl Hall]. split.
  - by rewrite length_insert.
  - apply Forall_insert; [done|]. by rewrite length_insert.
Qed.

Lemma place_blocks_wf tag pos blocks b :
  wf_board rows cols b →
  ∃ b', place_blocks rows cols tag pos blocks b = Ok b' ∧ wf_board rows cols b'.
Proof.
  revert b. induction blocks as [|[dr dc] rest IH]; intros b Hwf; simpl.
  { by exists b. }
  destruct (_ && _) eqn:Hin; [|by apply IH].
  repeat (apply andb_prop in Hin as [Hin ?]).
  destruct (board_set_wf b (pos.1 + dr) (pos.2 + dc) (Some tag) Hwf)
    as (b' & -> & Hwf'); [lia..|].
  simpl. by apply IH.
Qed.

Lemma scan_lines_seq b n s :
  (s + n ≤ length b)%nat →
  scan_lines b (Z.of_nat <$> seq s n) = Ok (full_indices s (take n (drop s b))).
Proof.
  revert s. induction n as [|n IH]; intros s Hlen; simpl; [done|].
  rewrite Nat2Z.id.
  destruct (lookup_lt_is_Some_2 b s) as [r Hr]; [lia|].
  rewrite Hr, (drop_S _ _ _ Hr). simpl.
  rewrite IH by lia. simpl. by destruct (row_full r).
Qed.

Lemma scan_lines_wf b :
  length b = Z.to_nat rows →
  scan_lines b (range rows) = Ok (full_indices 0 b).
Proof.
  intros Hlen. unfold range. rewrite scan_lines_seq by lia.
  rewrite drop_0, take_ge by lia. done.
Qed.

Lemma full_indices_length s l :
  Z.of_nat (length (full_indices s l)) = full_row_count l.
Proof.
  unfold full_row_count. f_equal.
  revert s. induction l as [|r l IH]; intros s; simpl; [done|].
  rewrite filter_cons. destruct (row_full r) eqn:Hr.
  - rewrite decide_True by done. simpl. by rewrite IH.
  - rewrite decide_False by congruence. apply IH.
Qed.

Lemma full_indices_bounds s l :
  Forall (fun i => Z.of_nat s ≤ i < Z.of_nat (s + length l)) (full_indices s l).
Proof.
  revert s. induction l as [|r l IH]; intros s; simpl; [constructor|].
  specialize (IH (S s)).
  assert (Forall (fun i => Z.of_nat s ≤ i < Z.of_nat (s + S (length l)))
            (full_indices (S s) l)) as IH'.
  { eapply Forall_impl; [exact IH|]. simpl. intros i Hi. lia. }
  destruct (row_full r); [constructor; [lia|done] | done].
Qed.

Lemma clear_lines_wf lines b :
  wf_board rows cols b → Forall (fun i => 0 ≤ i < rows) lines →
  ∃ b', clear_lines cols lines b = Ok b' ∧ wf_board rows cols b'.
Proof.
  revert b. induction lines as [|line rest IH]; intros b Hwf Hall; simpl.
  { by exists b. }
  apply Forall_cons in Hall as [Hline Hrest].
  destruct Hwf as [Hlen Hrows].
  unfold list_pop. rewrite (proj2 (Z.ltb_ge _ _)) by lia.
  rewrite (proj2 (Z.leb_le _ _)) by lia.
  rewrite (proj2 (Z.ltb_lt _ _)) by lia. simpl.
  apply IH; [|done]. split.
  - simpl. rewrite length_delete; [lia|].
    apply lookup_lt_is_Some_2. lia.
  - constructor; [by rewrite length_replicate|]. by apply Forall_delete.
Qed.

Lemma sorted_reverse_Forall (P : Z → Prop) l :
  Forall P l → Forall P (sorted_reverse l).
Proof.
  intros H. unfold sorted_reverse. by rewrite merge_sort_Permutation.
Qed.

(** A lock of an active piece on a well-formed board returns, the new
    board is well formed, and score and line counter grow by the table
    entry and by the number of fully occupied rows of the merged board. *)
Lemma lock_piece_wf st p :
  wf_board rows cols (board st) → current_piece st = Some p →
  ∃ merged new_board ev,
    place_blocks rows cols (piece_value p) (current_pos st)
      (get_piece_blocks p (current_rotation st)) (board st) = Ok merged
    ∧ wf_board rows cols merged
    ∧ clear_lines cols (sorted_reverse (full_indices 0 merged)) merged = Ok new_board
    ∧ wf_board rows cols new_board
    ∧ lock_piece rows cols st
      = Ok ({| board := new_board;
               current_piece := None;
               current_pos := (0, 3);
               current_rotation := 0;
               score := score st + points_get (full_row_count merged);
               lines_cleared := lines_cleared st + full_row_count merged;
               game_over := game_over st;
               move_count := move_count st |}, ev)
    ∧ ev !! "action" = Some (VStr "PIECE_LOCKED")
    ∧ ev !! "lines_cleared" = Some (VInt (full_row_count merged))
    ∧ ev !! "points_earned" = Some (VInt (points_get (full_row_count merged))).
Proof.
  intros Hwf Hp. unfold lock_piece. rewrite Hp.
  destruct (place_blocks_wf (piece_value p) (current_pos st)
              (get_piece_blocks p (current_rotation st)) _ Hwf)
    as (merged & Hm & Hwfm).
  rewrite Hm. simpl.
  rewrite scan_lines_wf by apply Hwfm. simpl.
  destruct (clear_lines_wf (sorted_reverse (full_indices 0 merged)) merged Hwfm)
    as (nb & Hc & Hwfn).
  { apply sorted_reverse_Forall.
    eapply Forall_impl; [apply full_indices_bounds|].
    simpl. intros i Hi. destruct Hwfm as [Hl _]. lia. }
  rewrite Hc. simpl. rewrite full_indices_length.
  exists merged, nb. eexists. split_and!; done.
Qed.

Lemma shift_down_0 st : shift_down st 0 = st.
Proof.
  destruct st as [b p [r c] rot sc lc go mc]. unfold shift_down, with_pos. simpl.
  by rewrite Z.add_0_r.
Qed.

Lemma shift_down_add st a b :
  shift_down (shift_down st a) b = shift_down st (a + b).
Proof.
  unfold shift_down, with_pos. simpl. by rewrite Z.add_assoc.
Qed.

Lemma drop_loop_S fuel st acc :
  drop_loop rows cols (S fuel) st acc
  = match check_collision rows cols (shift_down st 1) with
    | Raise e => Some (Raise e)
    | Ok true => Some (Ok (st, acc))
    | Ok false => drop_loop rows cols fuel (shift_down st 1) (acc + 1)
    end.
Proof. reflexivity. Qed.

Lemma drop_loop_found fuel st acc d :
  0 ≤ d → (Z.to_nat d < fuel)%nat →
  (∀ i, 1 ≤ i ≤ d → check_collision rows cols (shift_down st i) = Ok false) →
  check_collision rows cols (shift_down st (d + 1)) = Ok true →
  drop_loop rows cols fuel st acc = Some (Ok (shift_down st d, acc + d)).
Proof.
  revert st acc d. induction fuel as [|fuel IH]; intros st acc d Hd Hfuel Hfree Hhit.
  { lia. }
  rewrite drop_loop_S.
  destruct (decide (d = 0)) as [->|Hne].
  - change (0 + 1) with 1 in Hhit. rewrite Hhit. by rewrite shift_down_0, Z.add_0_r.
  - rewrite (Hfree 1) by lia.
    rewrite (IH (shift_down st 1) (acc + 1) (d - 1)); [| lia | lia | |].
    + rewrite shift_down_add. do 3 f_equal; [f_equal|]; lia.
    + intros i Hi. rewrite shift_down_add. apply Hfree. lia.
    + rewrite shift_down_add. by replace (1 + (d - 1 + 1)) with (d + 1) by lia.
Qed.

Lemma rotate_blocks_length l : length (rotate_blocks l) = length l.
Proof. unfold rotate_blocks. by rewrite length_fmap. Qed.

Lemma get_piece_blocks_length p rot : length (get_piece_blocks p rot) = 4%nat.
Proof.
  unfold get_piece_blocks. induction (Z.to_nat rot) as [|n IH]; simpl.
  - by destruct p.
  - by rewrite rotate_blocks_length.
Qed.

(** A position that does not collide has its first block inside the rows. *)
Lemma first_block_rows st p :
  current_piece st = Some p →
  ∃ dr, ∀ d, check_collision rows cols (shift_down st d) = Ok false →
             0 ≤ (current_pos st).1 + d + dr < rows.
Proof.
  intros Hp.
  pose proof (get_piece_blocks_length p (current_rotation st)) as Hlen.
  destruct (get_piece_blocks p (current_rotation st)) as [|[dr dc] rest] eqn:Hb;
    [discriminate|].
  exists dr. intros d. unfold check_collision. simpl. rewrite Hp, Hb. simpl.
  destruct (_ || _) eqn:Hout; [discriminate|]. intros _.
  repeat (apply orb_false_elim in Hout as [Hout ?]). lia.
Qed.

Lemma drop_search st (n : nat) :
  wf_board rows cols (board st) →
  (∃ d, 0 ≤ d < Z.of_nat n
        ∧ (∀ i, 1 ≤ i ≤ d → check_collision rows cols (shift_down st i) = Ok false)
        ∧ check_collision rows cols (shift_down st (d + 1)) = Ok true)
  ∨ (∀ i, 1 ≤ i ≤ Z.of_nat n → check_collision rows cols (shift_down st i) = Ok false).
Proof.
  intros Hwf. induction n as [|n [(d & Hd & Hfree & Hhit)|Hfree]].
  - right. intros i Hi. lia.
  - left. exists d. split; [lia|done].
  - destruct (check_collision_wf (shift_down st (Z.of_nat n + 1)) Hwf) as [[|] Hc].
    + left. exists (Z.of_nat n). split; [lia|]. split; [|done].
      intros i Hi. apply Hfree. lia.
    + right. intros i Hi. destruct (decide (i = Z.of_nat n + 1)) as [->|]; [done|].
      apply Hfree. lia.
Qed.

(** The resting position exists and lies at most [rows] steps below. *)
Lemma drop_distance_exists st p :
  wf_board rows cols (board st) → current_piece st = Some p →
  ∃ d, 0 ≤ d ≤ Z.of_nat (Z.to_nat rows)
       ∧ (∀ i, 1 ≤ i ≤ d → check_collision rows cols (shift_down st i) = Ok false)
       ∧ check_collision rows cols (shift_down st (d + 1)) = Ok true.
Proof.
  intros Hwf Hp.
  destruct (drop_search st (S (Z.to_nat rows)) Hwf) as [(d & Hd & Hfree & Hhit)|Hfree].
  - exists d. split; [lia|done].
  - exfalso. destruct (first_block_rows st p Hp) as [dr Hdr].
    pose proof (Hdr 1 (Hfree 1 ltac:(lia))) as H1.
    pose proof (Hdr _ (Hfree (Z.of_nat (S (Z.to_nat rows))) ltac:(lia))) as H2.
    lia.
Qed.

Lemma points_get_nonneg k : 0 ≤ points_get k.
Proof.
  destruct k as [|q|q]; simpl; [lia| |lia].
  repeat (destruct q as [q|q|]; simpl; try lia).
Qed.

Lemma points_get_above k : 4 < k → points_get k = 0.
Proof.
  destruct k as [|q|q]; simpl; [lia| |lia].
  repeat (destruct q as [q|q|]; simpl; try lia).
Qed.

Lemma inactive_false st :
  inactive st = false ↔ (∃ p, current_piece st = Some p) ∧ game_over st = false.
Proof.
  unfold inactive. destruct (current_piece st) as [p|]; split.
  - intros H. split; [by exists p | done].
  - by intros [_ H].
  - discriminate.
  - by intros [[p [=]] _].
Qed.

Lemma inactive_true st :
  inactive st = true ↔ current_piece st = None ∨ game_over st = true.
Proof.
  unfold inactive. destruct (current_piece st) as [p|]; split; try tauto.
  by intros [[=]|H].
Qed.

(** *** The score never goes down (every operation, every state) *)

Lemma lock_piece_score st st' ev :
  lock_piece rows cols st = Ok (st', ev) → score st ≤ score st'.
Proof.
  unfold lock_piece. destruct (current_piece st) as [p|]; [|discriminate].
  intros H. inv_bind H as merged Hm. inv_bind H as lines Hl. inv_bind H as nb Hnb.
  injection H as <- _. simpl.
  pose proof (points_get_nonneg (Z.of_nat (length lines))). lia.
Qed.

Lemma spawn_piece_score piece st st' ev :
  spawn_piece rows cols piece st = Ok (st', ev) → score st' = score st.
Proof.
  unfold spawn_piece. intros H. inv_bind H as blocked Hb. by injection H as <- _.
Qed.

Lemma move_score st action st' ev :
  move rows cols st action = Ok (st', ev) → score st ≤ score st'.
Proof.
  unfold move. destruct (inactive st).
  { intros [= <- _]. lia. }
  destruct (move_target _ _) as [np|]; [|intros [= <- _]; lia].
  intros H. inv_bind H as blocked Hb. destruct blocked.
  - destruct (decide _); [|injection H as <- _; lia].
    inv_bind H as [s1 e1] Hlock. injection H as <- _.
    by eapply lock_piece_score.
  - injection H as <- _. simpl. lia.
Qed.

Lemma rotate_score st clockwise st' ev :
  rotate rows cols st clockwise = Ok (st', ev) → score st ≤ score st'.
Proof.
  unfold rotate. destruct (inactive st).
  { intros [= <- _]. lia. }
  intros H. inv_bind H as blocked Hb.
  destruct blocked; injection H as <- _; simpl; lia.
Qed.

Lemma drop_loop_inv fuel st acc cs d :
  drop_loop rows cols fuel st acc = Some (Ok (cs, d)) →
  acc ≤ d ∧ cs = shift_down st (d - acc).
Proof.
  revert st acc. induction fuel as [|fuel IH]; intros st acc; [discriminate|].
  rewrite drop_loop_S.
  destruct (check_collision rows cols (shift_down st 1)) as [[|]|e]; [| |discriminate].
  - intros [= <- <-]. split; [lia|]. by rewrite Z.sub_diag, shift_down_0.
  - intros H. apply IH in H as [Hle ->]. split; [lia|].
    rewrite shift_down_add. f_equal. lia.
Qed.

Lemma hard_drop_score fuel st st' ev :
  hard_drop rows cols fuel st = Some (Ok (st', ev)) → score st ≤ score st'.
Proof.
  unfold hard_drop. destruct (inactive st).
  { intros [= <- _]. lia. }
  destruct (drop_loop rows cols fuel st 0) as [r|] eqn:Hloop; [|discriminate].
  simpl. intros [= H]. inv_bind H as [cs d] Hr.
  inv_bind H as [locked lev] Hlock. injection H as <- _. subst r.
  apply drop_loop_inv in Hloop as [Hd ->].
  apply lock_piece_score in Hlock. simpl in *. lia.
Qed.

Lemma apply_op_score fuel op st st' :
  apply_op rows cols fuel op st = Some (Ok st') → score st ≤ score st'.
Proof.
  destruct op as [piece|action|clockwise|]; simpl.
  - intros [= H]. inv_bind H as [s1 e1] Hop. injection H as <-.
    apply spawn_piece_score in Hop. lia.
  - intros [= H]. inv_bind H as [s1 e1] Hop. injection H as <-.
    by eapply move_score.
  - intros [= H]. inv_bind H as [s1 e1] Hop. injection H as <-.
    by eapply rotate_score.
  - destruct (hard_drop rows cols fuel st) as [r|] eqn:Hd; [|discriminate].
    simpl. intros [= H]. inv_bind H as [s1 e1] Hop. injection H as <-.
    subst r. by eapply hard_drop_score.
Qed.

(** *** On a well-formed board every operation returns *)

Lemma spawn_piece_total piece st :
  wf_board rows cols (board st) →
  ∃ st' ev, spawn_piece rows cols piece st = Ok (st', ev) ∧ board st' = board st.
Proof.
  intros Hwf. unfold spawn_piece.
  match goal with |- context [check_collision rows cols ?s] =>
    destruct (check_collision_wf s Hwf) as [r ->] end.
  simpl. by do 2 eexists.
Qed.

Lemma move_total st action :
  wf_board rows cols (board st) →
  ∃ st' ev, move rows cols st action = Ok (st', ev) ∧ wf_board rows cols (board st').
Proof.
  intros Hwf. unfold move. destruct (inactive st) eqn:Hact; [by do 2 eexists|].
  destruct (move_target _ _) as [np|]; [|by do 2 eexists].
  match goal with |- context [check_collision rows cols ?s] =>
    destruct (check_collision_wf s Hwf) as [r ->] end.
  simpl. destruct r; [|by do 2 eexists].
  destruct (decide _); [|by do 2 eexists].
  apply inactive_false in Hact as [[p Hp] _].
  destruct (lock_piece_wf st p Hwf Hp) as (m & nb & ev & _ & _ & _ & Hnb & -> & _).
  simpl. by do 2 eexists.
Qed.

Lemma rotate_total st clockwise :
  wf_board rows cols (board st) →
  ∃ st' ev, rotate rows cols st clockwise = Ok (st', ev)
            ∧ wf_board rows cols (board st').
Proof.
  intros Hwf. unfold rotate. destruct (inactive st); [by do 2 eexists|].
  match goal with |- context [check_collision rows cols ?s] =>
    destruct (check_collision_wf s Hwf) as [r ->] end.
  simpl. destruct r; by do 2 eexists.
Qed.

Lemma hard_drop_total fuel st :
  wf_board rows cols (board st) → (Z.to_nat rows < fuel)%nat →
  ∃ st' ev, hard_drop rows cols fuel st = Some (Ok (st', ev))
            ∧ wf_board rows cols (board st').
Proof.
  intros Hwf Hfuel. unfold hard_drop.
  destruct (inactive st) eqn:Hact; [by do 2 eexists|].
  apply inactive_false in Hact as [[p Hp] _].
  destruct (drop_distance_exists st p Hwf Hp) as (d & Hd & Hfree & Hhit).
  rewrite (drop_loop_found fuel st 0 d) by (try done; lia). simpl.
  destruct (lock_piece_wf (shift_down st d) p Hwf Hp)
    as (m & nb & ev & _ & _ & _ & Hnb & -> & _).
  simpl. by do 2 eexists.
Qed.

Lemma apply_op_total fuel op st :
  wf_board rows cols (board st) → (Z.to_nat rows < fuel)%nat →
  ∃ st', apply_op rows cols fuel op st = Some (Ok st')
         ∧ wf_board rows cols (board st').
Proof.
  intros Hwf Hfuel. destruct op as [piece|action|clockwise|]; simpl.
  - destruct (spawn_piece_total piece st Hwf) as (s & e & -> & Hb).
    simpl. exists s. by rewrite Hb.
  - destruct (move_total st action Hwf) as (s & e & -> & Hb). by exists s.
  - destruct (rotate_total st clockwise Hwf) as (s & e & -> & Hb). by exists s.
  - destruct (hard_drop_total fuel st Hwf Hfuel) as (s & e & -> & Hb). by exists s.
Qed.

Lemma new_game_wf : wf_board rows cols (board (new_game rows cols)).
Proof.
  simpl. split.
  - unfold range. by rewrite !length_fmap, length_seq.
  - apply Forall_fmap, Forall_forall. intros i _. simpl.
    unfold range. by rewrite !length_fmap, length_seq.
Qed.

Lemma run_ops_total fuel ops st :
  wf_board rows cols (board st) → (Z.to_nat rows < fuel)%nat →
  ∃ sts, run_ops rows cols fuel ops st = Some (Ok sts)
         ∧ length sts = length ops
         ∧ scores_nondecreasing (score st) sts.
Proof.
  intros Hwf Hfuel. revert st Hwf.
  induction ops as [|op rest IH]; intros st Hwf; simpl.
  { by exists []. }
  destruct (apply_op_total fuel op st Hwf Hfuel) as (st' & Hop & Hwf').
  rewrite Hop. destruct (IH st' Hwf') as (sts & -> & Hlen & Hmono).
  exists (st' :: sts). simpl. split; [done|]. split; [by rewrite Hlen|].
  split; [by eapply apply_op_score | done].
Qed.

Lemma scores_nondecreasing_lower prev sts :
  scores_nondecreasing prev sts → Forall (fun s => prev ≤ score s) sts.
Proof.
  revert prev. induction sts as [|s sts IH]; intros prev; simpl; [constructor|].
  intros [Hle Hrest]. constructor; [done|].
  eapply Forall_impl; [by apply IH|]. simpl. intros. lia.
Qed.

End EngineFacts.

(** ** Locking: score and line counter *)

(** C4: a lock whose merged board has [k] fully occupied rows adds the
    table entry for [k] to the score (0, 100, 300, 500, 800 for
    [k = 0..4], and 0 for every [k] above 4) and adds [k] to
    [lines_cleared]; the lock event reports the same two numbers. *)
Theorem lock_piece_score_table rows cols st p :
  wf_board rows cols (board st) → current_piece st = Some p →
  ∃ merged st' ev,
    place_blocks rows cols (piece_value p) (current_pos st)
      (get_piece_blocks p (current_rotation st)) (board st) = Ok merged
    ∧ lock_piece rows cols st = Ok (st', ev)
    ∧ lines_cleared st' = lines_cleared st + full_row_count merged
    ∧ score st' = score st + points_get (full_row_count merged)
    ∧ (full_row_count merged = 0 → score st' = score st)
    ∧ (full_row_count merged = 1 → score st' = score st + 100)
    ∧ (full_row_count merged = 2 → score st' = score st + 300)
    ∧ (full_row_count merged = 3 → score st' = score st + 500)
    ∧ (full_row_count merged = 4 → score st' = score st + 800)
    ∧ (4 < full_row_count merged → score st' = score st)
    ∧ ev !! "lines_cleared" = Some (VInt (full_row_count merged))
    ∧ ev !! "points_earned" = Some (VInt (points_get (full_row_count merged))).
Proof.
  intros Hwf Hp.
  destruct (lock_piece_wf rows cols st p Hwf Hp)
    as (merged & nb & ev & Hm & _ & _ & _ & Hlock & _ & Hl & Hpts).
  exists merged. do 2 eexists. split; [exact Hm|]. split; [exact Hlock|].
  simpl. split_and!; try done.
  - intros ->. simpl. lia.
  - by intros ->.
  - by intros ->.
  - by intros ->.
  - by intros ->.
  - intros Hk. rewrite points_get_above by done. lia.
Qed.

Lemma lock_piece_score_table_witness :
  ∃ merged st' ev,
    place_blocks 20 10 (piece_value Piece_O) (current_pos two_line_state)
      (get_piece_blocks Piece_O (current_rotation two_line_state))
      (board two_line_state) = Ok merged
    ∧ lock_piece 20 10 two_line_state = Ok (st', ev)
    ∧ lines_cleared st' = lines_cleared two_line_state + full_row_count merged
    ∧ score st' = score two_line_state + points_get (full_row_count merged)
    ∧ (full_row_count merged = 0 → score st' = score two_line_state)
    ∧ (full_row_count merged = 1 → score st' = score two_line_state + 100)
    ∧ (full_row_count merged = 2 → score st' = score two_line_state + 300)
    ∧ (full_row_count merged = 3 → score st' = score two_line_state + 500)
    ∧ (full_row_count merged = 4 → score st' = score two_line_state + 800)
    ∧ (4 < full_row_count merged → score st' = score two_line_state)
    ∧ ev !! "lines_cleared" = Some (VInt (full_row_count merged))
    ∧ ev !! "points_earned" = Some (VInt (points_get (full_row_count merged))).
Proof.
  apply (lock_piece_score_table 20 10 two_line_state Piece_O).
  - split; [reflexivity | repeat constructor].
  - reflexivity.
Defined.

(** ** Locking: which rows the line clear removes *)

Lemma full_indices_nil s l :
  full_indices s l = [] → filter (fun r => row_full r ≠ true) l = l.
Proof.
  revert s. induction l as [|r l IH]; intros s; simpl; [done|].
  destruct (row_full r) eqn:Hr; [discriminate|].
  intros H. rewrite filter_cons, decide_True by congruence. f_equal. by eapply IH.
Qed.

Lemma full_indices_single s l i :
  full_indices s l = [i] →
  (s ≤ Z.to_nat i)%nat ∧ 0 ≤ i
  ∧ filter (fun r => row_full r ≠ true) l = delete (Z.to_nat i - s)%nat l.
Proof.
  revert s. induction l as [|r l IH]; intros s; simpl; [discriminate|].
  destruct (row_full r) eqn:Hr.
  - intros [= <- Hnil]. rewrite Nat2Z.id, Nat.sub_diag. simpl.
    split; [lia|]. split; [lia|].
    rewrite filter_cons, decide_False by (intros H; by apply H).
    by eapply full_indices_nil.
  - intros H. destruct (IH _ H) as (Hle & Hi & Hf). split; [lia|]. split; [done|].
    rewrite filter_cons, decide_True by congruence.
    replace (Z.to_nat i - s)%nat with (S (Z.to_nat i - S s)) by lia.
    simpl. by f_equal.
Qed.

(** With at most one completed row the clearing loop is the line clear of
    the specification. *)
Lemma clear_lines_at_most_one rows cols merged :
  wf_board rows cols merged → full_row_count merged ≤ 1 →
  clear_lines cols (sorted_reverse (full_indices 0 merged)) merged
  = Ok (remove_full_rows cols merged).
Proof.
  intros Hwf Hk. pose proof (full_indices_length 0 merged) as Hlen.
  pose proof (full_indices_bounds 0 merged) as Hb.
  unfold remove_full_rows.
  assert (length (filter (fun r => row_full r = true) merged)
          = length (full_indices 0 merged)) as ->.
  { unfold full_row_count in Hlen. lia. }
  destruct (full_indices 0 merged) as [|i [|j rest]] eqn:Hfi; simpl in *.
  - by rewrite (full_indices_nil 0 merged Hfi).
  - apply Forall_cons in Hb as [Hi _].
    destruct (full_indices_single 0 merged i Hfi) as (_ & _ & ->).
    unfold list_pop. rewrite (proj2 (Z.ltb_ge _ _)) by lia.
    rewrite (proj2 (Z.leb_le _ _)) by lia.
    rewrite (proj2 (Z.ltb_lt _ _)) by lia. simpl.
    by rewrite Nat.sub_0_r.
  - lia.
Qed.

(** X4: a lock that completes at most one row leaves exactly the merged
    board with that row removed, an empty row on top and the other rows
    in their order. *)
Lemma lock_piece_board_at_most_one_line rows cols st p :
  wf_board rows cols (board st) → current_piece st = Some p →
  ∃ merged st' ev,
    place_blocks rows cols (piece_value p) (current_pos st)
      (get_piece_blocks p (current_rotation st)) (board st) = Ok merged
    ∧ lock_piece rows cols st = Ok (st', ev)
    ∧ (full_row_count merged ≤ 1 → board st' = remove_full_rows cols merged).
Proof.
  intros Hwf Hp.
  destruct (lock_piece_wf rows cols st p Hwf Hp)
    as (merged & nb & ev & Hm & Hwfm & Hclear & _ & Hlock & _).
  exists merged. do 2 eexists. split; [exact Hm|]. split; [exact Hlock|].
  intros Hk. simpl.
  rewrite (clear_lines_at_most_one rows cols merged Hwfm Hk) in Hclear.
  by injection Hclear as <-.
Qed.

(** C1 at a lock that completes two rows: the O piece fills the gap of
    rows 18 and 19 and both rows are counted as cleared, yet the clearing
    loop deletes row 19 and row 17 and leaves the completed row 18 at the
    bottom, where the specification's line clear keeps row 17. *)
Theorem lock_piece_two_lines_removes_wrong_row :
  place_blocks 20 10 (piece_value Piece_O) (current_pos two_line_state)
    (get_piece_blocks Piece_O (current_rotation two_line_state))
    (board two_line_state)
  = Ok (replicate 17 empty_row ++ [marked_row; closed_row; closed_row])
  ∧ lock_piece 20 10 two_line_state
    = Ok ({| board := replicate 19 empty_row ++ [closed_row];
             current_piece := None;
             current_pos := (0, 3);
             current_rotation := 0;
             score := 300;
             lines_cleared := 2;
             game_over := false;
             move_count := 0 |},
          {[ "action" := VStr "PIECE_LOCKED";
             "piece" := VStr "O";
             "position" := VPos (18, 0);
             "lines_cleared" := VInt 2;
             "cleared_rows" := VList [18; 19];
             "points_earned" := VInt 300;
             "total_score" := VInt 300 ]})
  ∧ remove_full_rows 10 (replicate 17 empty_row ++ [marked_row; closed_row; closed_row])
    = replicate 19 empty_row ++ [marked_row]
  ∧ replicate 19 empty_row ++ [closed_row] ≠ replicate 19 empty_row ++ [marked_row].
Proof.
  split; [vm_compute; reflexivity|].
  split.
  { match goal with |- _ = ?r => vm_cast_no_check (eq_refl r) end. }
  split; [vm_compute; reflexivity|].
  vm_compute. discriminate.
Qed.

(** ** Hard drop *)



(** ** No-ops and the colliding move down *)

(** C7: without an active piece, or with the terminal flag set, [move],
    [rotate] and [hard_drop] return the state they were given and no
    event, whatever the board.  With an active piece on a board of the
    engine's dimensions the collision test of the candidate returns;
    when it reports a collision, a move left or right and a rotation
    return the given state and no event, and a move down returns the
    lock of the given state.  None of these calls raises. *)
Theorem blocked_calls_are_noops rows cols st :
  (current_piece st = None ∨ game_over st = true →
     (∀ action, move rows cols st action = Ok (st, None))
     ∧ (∀ clockwise, rotate rows cols st clockwise = Ok (st, None))
     ∧ (∀ fuel, hard_drop rows cols fuel st = Some (Ok (st, None))))
  ∧ (∀ action new_pos,
       wf_board rows cols (board st) →
       move_target (current_pos st) action = Some new_pos →
       ∃ blocked,
         check_collision rows cols (with_pos st new_pos (move_count st + 1)) = Ok blocked
         ∧ (current_piece st ≠ None → game_over st = false → blocked = true →
              (action ≠ MOVE_DOWN → move rows cols st action = Ok (st, None))
              ∧ (action = MOVE_DOWN →
                   ∃ st' ev, lock_piece rows cols st = Ok (st', ev)
                             ∧ move rows cols st action = Ok (st', Some ev))))
  ∧ (∀ clockwise : bool,
       wf_board rows cols (board st) →
       ∃ blocked,
         check_collision rows cols
           (with_rotation st
              ((current_rotation st + (if clockwise then 1 else -1)) `mod` 4)
              (move_count st + 1)) = Ok blocked
         ∧ (current_piece st ≠ None → game_over st = false → blocked = true →
              rotate rows cols st clockwise = Ok (st, None))).
Proof.
  split_and!.
  - intros Hin. apply inactive_true in Hin. unfold move, rotate, hard_drop.
    by rewrite Hin.
  - intros action new_pos Hwf Htarget.
    destruct (check_collision_wf rows cols
                (with_pos st new_pos (move_count st + 1)) Hwf) as [blocked Hc].
    exists blocked. split; [done|]. intros Hp Hgo ->.
    destruct (current_piece st) as [p|] eqn:Hpiece; [|done].
    assert (inactive st = false) as Hact by (apply inactive_false; eauto).
    unfold move. rewrite Hact, Htarget, Hc. simpl. split.
    + intros Hne. by rewrite decide_False.
    + intros ->. rewrite decide_True by done.
      destruct (lock_piece_wf rows cols st p Hwf Hpiece)
        as (m & nb & ev & _ & _ & _ & _ & Hlock & _).
      rewrite Hlock. simpl. by do 2 eexists.
  - intros clockwise Hwf.
    match goal with |- context [check_collision rows cols ?s] =>
      destruct (check_collision_wf rows cols s Hwf) as [blocked Hc] end.
    exists blocked. split; [done|]. intros Hp Hgo ->.
    destruct (current_piece st) as [p|] eqn:Hpiece; [|done].
    assert (inactive st = false) as Hact by (apply inactive_false; eauto).
    unfold rotate. by rewrite Hact, Hc.
Qed.

(** A T piece at the left wall of the empty board. *)
Lemma blocked_calls_are_noops_witness :
  move 20 10 (with_pos fresh_state (0, 0) 0) MOVE_LEFT
  = Ok (with_pos fresh_state (0, 0) 0, None).
Proof.
  assert (wf_board 20 10 (board (with_pos fresh_state (0, 0) 0))) as Hwf.
  { split; [reflexivity | vm_compute; repeat constructor]. }
  destruct (blocked_calls_are_noops 20 10 (with_pos fresh_state (0, 0) 0))
    as (_ & Hmove & _).
  destruct (Hmove MOVE_LEFT (0, -1) Hwf eq_refl) as (blocked & Hc & Hnoop).
  apply Hnoop; [discriminate | reflexivity | | discriminate].
  vm_compute in Hc. by injection Hc as <-.
Defined.

(** ** Accepted moves and rotations *)

(** C9: a move or rotation whose candidate does not collide returns an
    event and a state that differs from the given one only in
    [move_count], which is one higher, and in the position (for a move)
    or the rotation index (for a rotation). *)
Theorem accepted_move_changes_only_position rows cols st :
  inactive st = false →
  (∀ action new_pos,
     move_target (current_pos st) action = Some new_pos →
     check_collision rows cols (with_pos st new_pos (move_count st + 1)) = Ok false →
     ∃ st' ev,
       move rows cols st action = Ok (st', Some ev)
       ∧ move_count st' = move_count st + 1
       ∧ current_pos st' = new_pos
       ∧ current_rotation st' = current_rotation st
       ∧ board st' = board st
       ∧ score st' = score st
       ∧ lines_cleared st' = lines_cleared st
       ∧ game_over st' = game_over st
       ∧ current_piece st' = current_piece st)
  ∧ (∀ clockwise : bool,
       let new_rotation :=
         (current_rotation st + (if clockwise then 1 else -1)) `mod` 4 in
       check_collision rows cols (with_rotation st new_rotation (move_count st + 1))
       = Ok false →
       ∃ st' ev,
         rotate rows cols st clockwise = Ok (st', Some ev)
         ∧ move_count st' = move_count st + 1
         ∧ current_rotation st' = new_rotation
         ∧ current_pos st' = current_pos st
         ∧ board st' = board st
         ∧ score st' = score st
         ∧ lines_cleared st' = lines_cleared st
         ∧ game_over st' = game_over st
         ∧ current_piece st' = current_piece st).
Proof.
  intros Hact. split.
  - intros action new_pos Htarget Hfree. unfold move.
    rewrite Hact, Htarget, Hfree. simpl. do 2 eexists. by split_and!.
  - intros clockwise new_rotation Hfree. unfold rotate.
    rewrite Hact. fold new_rotation. rewrite Hfree. simpl.
    do 2 eexists. by split_and!.
Qed.

Lemma accepted_move_changes_only_position_witness :
  ∃ st' ev,
    move 20 10 fresh_state MOVE_RIGHT = Ok (st', Some ev)
    ∧ move_count st' = move_count fresh_state + 1
    ∧ current_pos st' = (0, 4)
    ∧ current_rotation st' = current_rotation fresh_state
    ∧ board st' = board fresh_state
    ∧ score st' = score fresh_state
    ∧ lines_cleared st' = lines_cleared fresh_state
    ∧ game_over st' = game_over fresh_state
    ∧ current_piece st' = current_piece fresh_state.
Proof.
  apply (proj1 (accepted_move_changes_only_position 20 10 fresh_state eq_refl)
           MOVE_RIGHT (0, 4)).
  - reflexivity.
  - vm_compute. reflexivity.
Defined.

(** ** The score never decreases *)

(** C10: every engine operation that returns leaves the score at least as
    high as it was, on every state; on a well-formed board every
    operation does return; and from [new_game] every sequence of
    operations runs through states whose scores start at or above 0 and
    never go down. *)
Theorem score_never_decreases rows cols :
  (∀ st st' ev, lock_piece rows cols st = Ok (st', ev) → score st ≤ score st')
  ∧ (∀ fuel op st st',
       apply_op rows cols fuel op st = Some (Ok st') → score st ≤ score st')
  ∧ (∀ fuel op st,
       wf_board rows cols (board st) → (Z.to_nat rows < fuel)%nat →
       ∃ st', apply_op rows cols fuel op st = Some (Ok st') ∧ score st ≤ score st')
  ∧ (∀ fuel ops,
       (Z.to_nat rows < fuel)%nat →
       ∃ sts,
         run_ops rows cols fuel ops (new_game rows cols) = Some (Ok sts)
         ∧ length sts = length ops
         ∧ scores_nondecreasing 0 sts
         ∧ Forall (fun s => 0 ≤ score s) sts).
Proof.
  split_and!.
  - apply lock_piece_score.
  - apply apply_op_score.
  - intros fuel op st Hwf Hfuel.
    destruct (apply_op_total rows cols fuel op st Hwf Hfuel) as (st' & Hop & _).
    exists st'. split; [done|]. by eapply apply_op_score.
  - intros fuel ops Hfuel.
    destruct (run_ops_total rows cols fuel ops (new_game rows cols)
                (new_game_wf rows cols) Hfuel) as (sts & Hrun & Hlen & Hmono).
    exists sts. split_and!; try done. by apply scores_nondecreasing_lower.
Qed.

Lemma score_never_decreases_witness :
  ∃ sts,
    run_ops 20 10 21 [OpSpawn Piece_I; OpMove MOVE_LEFT; OpRotate true; OpHardDrop;
                      OpSpawn Piece_O; OpMove MOVE_DOWN]
      (new_game 20 10) = Some (Ok sts)
    ∧ length sts = 6%nat
    ∧ scores_nondecreasing 0 sts
    ∧ Forall (fun s => 0 ≤ score s) sts.
Proof.
  destruct (score_never_decreases 20 10) as (_ & _ & _ & Hrun).
  apply (Hrun 21%nat [OpSpawn Piece_I; OpMove MOVE_LEFT; OpRotate true; OpHardDrop;
                      OpSpawn Piece_O; OpMove MOVE_DOWN]).
  vm_compute. lia.
Defined.

(** * Facts about the policy validator *)

Lemma get_int_numeric event key :
  numeric_field event key → ∃ n, get_int event key = Ok n.
Proof.
  unfold numeric_field, get_int.
  destruct (event !! key) as [[]|]; intros H; try done; by eexists.
Qed.

Lemma recent_clears_loop_numeric events limit clears :
  numeric_history events → numeric_history clears →
  ∃ r, recent_clears_loop events limit clears = Ok r ∧ numeric_history r.
Proof.
  revert clears. induction events as [|e rest IH]; intros clears Hev Hcl; simpl.
  { by exists clears. }
  apply Forall_cons in Hev as [[Hl Hp] Hrest].
  assert (numeric_history (clears ++ [e])) as Hcl'.
  { apply Forall_app. split; [done|]. by repeat constructor. }
  destruct (bool_decide _); simpl.
  - destruct (limit <=? _); [by eexists | by apply IH].
  - destruct (get_int_numeric e "lines_cleared" Hl) as [n ->]. simpl.
    destruct (0 <? n); [|by apply IH].
    destruct (limit <=? _); [by eexists | by apply IH].
Qed.

Lemma sum_points_numeric events acc :
  numeric_history events → ∃ n, sum_points events acc = Ok n.
Proof.
  revert acc. induction events as [|e rest IH]; intros acc Hev; simpl.
  { by eexists. }
  apply Forall_cons in Hev as [[_ Hp] Hrest].
  destruct (get_int_numeric e "points_earned" Hp) as [n ->]. simpl. by apply IH.
Qed.

Lemma validate_line_clear_approved policies lines points history r :
  validate_line_clear policies lines points history = Ok r → approved r = true →
  points = expected_points_get lines.
Proof.
  unfold validate_line_clear. case_bool_decide as Hne.
  - intros [= <-]. discriminate.
  - intros _ _. destruct (decide (points = expected_points_get lines)); [done|].
    by destruct Hne.
Qed.

(** C3: [validate_line_clear] rejects exactly when the submitted points
    differ from the table entry of the submitted line count (0, 100, 300,
    500, 800 for 0..4 lines, 0 for any other count), and the rejection's
    [penalty_points] are the submitted points; with four lines and 750
    points it rejects with the mismatch reason and penalty 750. *)
Theorem validate_line_clear_rejects_mismatch policies lines points history :
  (points ≠ expected_points_get lines →
     ∃ why, validate_line_clear policies lines points history
            = Ok {| approved := false; reason := Some why;
                    penalty_points := points; warning := None |})
  ∧ (∀ r, validate_line_clear policies lines points history = Ok r →
          approved r = false →
          points ≠ expected_points_get lines ∧ penalty_points r = points)
  ∧ (points = expected_points_get lines → numeric_history history →
       ∃ r, validate_line_clear policies lines points history = Ok r
            ∧ approved r = true)
  ∧ (expected_points_get 0 = 0 ∧ expected_points_get 1 = 100
     ∧ expected_points_get 2 = 300 ∧ expected_points_get 3 = 500
     ∧ expected_points_get 4 = 800
     ∧ ∀ k, k < 0 ∨ 4 < k → expected_points_get k = 0)
  ∧ validate_line_clear policies 4 750 history
    = Ok {| approved := false;
            reason := Some "Invalid scoring: 4 lines should give 800 points, got 750";
            penalty_points := 750; warning := None |}.
Proof.
  split_and!; try done.
  - intros Hne. unfold validate_line_clear. rewrite bool_decide_eq_true_2 by done.
    by eexists.
  - intros r. unfold validate_line_clear. case_bool_decide as Hne.
    + by intros [= <-] _.
    + intros H Hrej. exfalso. inv_bind H as recent Hrecent.
      destruct (3 <=? _); [|by injection H as <-].
      inv_bind H as total Htotal.
      destruct (_ <? _); by injection H as <-.
  - intros Heq Hnum. unfold validate_line_clear.
    rewrite bool_decide_eq_false_2 by (intros H; by apply H).
    destruct (recent_clears_loop_numeric (reverse history) 5 [])
      as (recent & Hrecent & Hnum'); [by apply Forall_reverse | constructor |].
    unfold get_recent_line_clears. rewrite Hrecent. simpl.
    destruct (3 <=? _); [|by eexists].
    destruct (sum_points_numeric recent 0 Hnum') as [total ->]. simpl.
    destruct (_ <? _); by eexists.
  - intros k [Hk|Hk]; destruct k as [|q|q]; simpl; try lia; try done.
    repeat (destruct q as [q|q|]; simpl; try lia; try done).
Qed.

Lemma validate_line_clear_rejects_mismatch_witness :
  ∃ why, validate_line_clear arcade_mode 2 800 []
         = Ok {| approved := false; reason := Some why;
                 penalty_points := 800; warning := None |}.
Proof.
  apply (proj1 (validate_line_clear_rejects_mismatch arcade_mode 2 800 [])).
  vm_compute. discriminate.
Defined.

(** *** Backtrack detection *)

(** With the first three checks passed, the fourth rejects exactly when
    the action undoes the last one and [_count_backtrack_moves] reaches
    the limit. *)
Lemma validate_move_backtrack_gate policies action current_state history b n :
  count_moves_for_current_piece history < max_moves_per_piece policies →
  (action ∈ ["ROTATE_CW"; "ROTATE_CCW"]%string →
   count_consecutive_actions history ["ROTATE_CW"; "ROTATE_CCW"]%string
   < max_consecutive_rotations policies) →
  (action ∈ ["MOVE_LEFT"; "MOVE_RIGHT"]%string →
   count_consecutive_actions history [action] < max_same_action_streak policies) →
  is_backtrack_move action history = Ok b →
  count_backtrack_moves history = Ok n →
  validate_move policies action current_state history
  = Ok (if b && bool_decide (max_backtrack_moves policies ≤ n)
        then reject ("Backtrack limit exceeded (" +:+ str n +:+ ")") 15
        else approve).
Proof.
  intros H1 H2 H3 Hb Hn. unfold validate_move.
  rewrite bool_decide_eq_false_2 by lia.
  assert (bool_decide (action ∈ ["ROTATE_CW"; "ROTATE_CCW"]%string)
          && bool_decide (max_consecutive_rotations policies
                          ≤ count_consecutive_actions history
                              ["ROTATE_CW"; "ROTATE_CCW"]%string) = false) as ->.
  { case_bool_decide as Hrot; [|done]. specialize (H2 Hrot).
    rewrite bool_decide_eq_false_2; [done|lia]. }
  assert (bool_decide (action ∈ ["MOVE_LEFT"; "MOVE_RIGHT"]%string)
          && bool_decide (max_same_action_streak policies
                          ≤ count_consecutive_actions history [action]) = false) as ->.
  { case_bool_decide as Hmv; [|done]. specialize (H3 Hmv).
    rewrite bool_decide_eq_false_2; [done|lia]. }
  rewrite Hb. cbn [bind]. destruct b; [|done].
  rewrite Hn. cbn [bind andb]. by destruct (bool_decide _).
Qed.

(** C6 on a history of rotations in arcade mode (limit 2): the proposed
    counter-clockwise turn undoes the last action and the last 20 entries
    hold two adjacent opposite pairs, so the claim has it rejected; the
    count the validator takes sees only left/right pairs, finds 0, and
    the move is approved.  The competitive scenario (limit 0, one
    move-left in the history, move-right proposed) is rejected with
    penalty 15. *)
Theorem validate_move_ignores_rotation_backtracks :
  is_backtrack_move "ROTATE_CCW" rotation_history = Ok true
  ∧ spec_backtrack_count rotation_history = 2
  ∧ max_backtrack_moves arcade_mode = 2
  ∧ count_backtrack_moves rotation_history = Ok 0
  ∧ validate_move arcade_mode "ROTATE_CCW" ∅ rotation_history = Ok approve
  ∧ validate_move (get_policy_validator "competitive_mode") "MOVE_RIGHT" ∅
      [action_event "MOVE_LEFT"]
    = Ok (reject "Backtrack limit exceeded (0)" 15).
Proof.
  split_and!; by vm_compute.
Qed.


(** * Facts about the agent loop *)

(** C2 on a hard drop: a game starts with an O piece and the player
    submits HARD_DROP.  The action is approved and the piece is locked,
    but the event the engine returns carries the action HARD_DROP, so
    step 6 does not run: the only spawn is the one of [start_game], no
    spawn event follows the drop, the session is left without an active
    piece, and the next action is turned down as an invalid move.  The
    same piece locked by a move down from its resting row is followed by
    the spawn of the next piece and its RUNNING event. *)
Theorem hard_drop_lock_is_not_followed_by_spawn :
  outcome demo_session hard_drop_game
  = Some {| out_log := [(RUNNING, VStr "SPAWN_PIECE"); (RUNNING, VStr "HARD_DROP")];
            out_engine_calls := [CallEngineSpawn; CallEngineHardDrop];
            out_piece := None;
            out_game_over := false;
            out_approved := true;
            out_reason := None;
            out_event := Some (VStr "HARD_DROP") |}
  ∧ outcome demo_session hard_drop_then_left
    = Some {| out_log := [(RUNNING, VStr "SPAWN_PIECE"); (RUNNING, VStr "HARD_DROP")];
              out_engine_calls :=
                [CallEngineSpawn; CallEngineHardDrop; CallEngineMove MOVE_LEFT];
              out_piece := None;
              out_game_over := false;
              out_approved := false;
              out_reason := Some "Invalid move (collision)"%string;
              out_event := None |}
  ∧ (fun o => (drop 19 (out_log o), drop 19 (out_engine_calls o), out_piece o,
               out_approved o, out_event o))
      <$> outcome demo_session move_down_lock_game
    = Some ([(RUNNING, VStr "PIECE_LOCKED"); (RUNNING, VStr "SPAWN_PIECE")],
            [CallEngineMove MOVE_DOWN; CallEngineSpawn],
            Some Piece_T, true, Some (VStr "PIECE_LOCKED")).
Proof.
  split; [vm_compute; reflexivity|].
  split; vm_compute; reflexivity.
Qed.

(** After the fifty accepted moves the action SPAWN_PIECE is answered by
    the validator, not as an unknown action, and the log ends with a
    FAILED event. *)
Lemma unknown_action_after_fifty_moves :
  (fun o => (drop 50 (out_log o), drop 50 (out_engine_calls o), out_game_over o,
             out_approved o, out_reason o))
    <$> outcome demo_session unknown_action_game
  = Some ([(RUNNING, VStr "ROTATE_CW"); (FAILED, VStr "SPAWN_PIECE")],
          [CallEngineRotate true], true, false,
          Some "Max moves per piece exceeded (50)"%string).
Proof. vm_compute. reflexivity. Qed.

(** C8 as stated fails after fifty accepted moves of one piece: the
    action SPAWN_PIECE, which no player may submit, is handed to
    [validate_move], which rejects it for the move limit, and a FAILED
    event is appended to the log, which grows from 51 to 52 events. *)
Lemma unknown_action_reaches_validator :
  ¬ (∀ fuel next_piece ex a w,
       player_action a = false → rejected_untouched fuel next_piece ex a w).
Proof.
  intros Hclaim.
  assert (log_length_after demo_session (fifty_move_game empty_world) = 51%nat) as H1.
  { vm_compute. reflexivity. }
  assert (log_length_after demo_session (unknown_action_game empty_world) = 52%nat) as H2.
  { vm_compute. reflexivity. }
  unfold unknown_action_game, bindM in H2.
  destruct (fifty_move_game empty_world) as [[w [ex|e]]|].
  - destruct (Hclaim 21%nat Piece_I ex SPAWN_PIECE w eq_refl)
      as (w' & ex' & pr & ev & Hrun & _ & Hstore & _).
    rewrite Hrun in H2. unfold log_length_after, session_log in H1, H2.
    rewrite Hstore in H2. congruence.
  - unfold log_length_after in H1, H2. congruence.
  - discriminate H1.
Qed.

(** C8 as amended: an action that is not a player action is first handed
    to [validate_move] with the session's history, and in no case is an
    engine operation called.  When the validator approves, the call is
    answered "Unknown action": the log and the game state are as they were
    and the only calls made are the read of the history and the
    validation.  When the validator rejects, the FAILED event with stage
    policy_violation, the action, the validator's reason and its penalty
    is handed to the log: if the log holds no FINALIZED event it is
    appended as the one new event, the game state is marked terminal and
    the validator's answer is returned; if the log already holds
    FINALIZED the append is refused, the log is unchanged and the call
    raises.  When the validator itself raises, the call raises and
    nothing is written. *)
Theorem unknown_action_goes_through_validator fuel next_piece ex a w :
  player_action a = false →
  let sid := (tenant_id ex, execution_id ex) in
  let history := event_payload <$> session_log w sid in
  let seen := calls w ++ [CallGetExecution; CallValidateMove (action_value a)] in
  ∃ w' r,
    execute_action fuel next_piece ex a w = Some (w', r)
    ∧ filter (fun c => is_engine_call c = true) (new_calls w w') = []
    ∧ match validate_move (policy_validator ex) (action_value a)
              (state_snapshot (game_state ex)) history with
      | Raise e => w' = {| store := store w; calls := seen |} ∧ r = Raise e
      | Ok pr =>
          if approved pr then
            w' = {| store := store w; calls := seen |}
            ∧ r = Ok (ex, {| approved := false; reason := Some "Unknown action"%string;
                             penalty_points := 0; warning := None |}, None)
          else
            let p : payload :=
              {[ "stage" := VStr "policy_violation";
                 "action" := VStr (action_value a);
                 "reason" := from_option VStr VNone (reason pr);
                 "penalty_points" := VInt (penalty_points pr) ]} in
            calls w' = seen ++ [CallAppend FAILED p]
            ∧ if bool_decide (Exists (fun e => event_state e = FINALIZED)
                                (session_log w sid))
              then store w' = store w ∧ r = Raise AppendRejected
              else store w' = <[sid := session_log w sid ++ [mkEvent FAILED p]]> (store w)
                   ∧ r = Ok (with_game_state ex (set_game_over (game_state ex)),
                             pr, None)
      end.
Proof.
  intros Ha sid history seen.
  assert (apply_game_logic fuel (game_state ex) a = None) as Hlogic.
  { by destruct a. }
  unfold execute_action, bindM, get_execution, record_call, lift, ret.
  cbn [store calls]. fold sid. fold (session_log w sid). fold history.
  rewrite <- app_assoc. cbn [app]. fold seen.
  assert (∀ st extra,
            filter (fun c => is_engine_call c = true)
              (new_calls w {| store := st; calls := seen ++ extra |})
            = filter (fun c => is_engine_call c = true) extra) as Hnew.
  { intros st extra. unfold new_calls, seen. cbn [calls].
    rewrite <- app_assoc. by rewrite drop_app_length. }
  destruct (validate_move _ _ _ history) as [pr|e].
  - destruct (approved pr) eqn:Happ; cbn [negb].
    + rewrite Hlogic. eexists _, _. split; [reflexivity|]. split; [|done].
      by rewrite <- (app_nil_r seen), Hnew.
    + unfold append_event_safe. cbn [store calls]. fold (session_log w sid).
      case_bool_decide as Hfin.
      * eexists _, _. split; [reflexivity|]. split; [rewrite Hnew; reflexivity|].
        cbv zeta. split_and!; reflexivity.
      * eexists _, _. split; [reflexivity|]. split; [rewrite Hnew; reflexivity|].
        cbv zeta. split_and!; reflexivity.
  - eexists _, _. split; [reflexivity|]. split; [|done].
    by rewrite <- (app_nil_r seen), Hnew.
Qed.

Lemma unknown_action_goes_through_validator_witness :
  ∃ w' r,
    execute_action 21 Piece_I
      {| tenant_id := "player-001"; execution_id := "game-session-001";
         game_state := fresh_state; policy_validator := default_policies |}
      LINE_CLEAR empty_world = Some (w', r)
    ∧ filter (fun c => is_engine_call c = true) (new_calls empty_world w') = []
    ∧ w' = {| store := ∅;
              calls := [CallGetExecution; CallValidateMove "LINE_CLEAR"] |}
    ∧ r = Ok ({| tenant_id := "player-001"; execution_id := "game-session-001";
                 game_state := fresh_state; policy_validator := default_policies |},
              {| approved := false; reason := Some "Unknown action"%string;
                 penalty_points := 0; warning := None |}, None).
Proof.
  destruct (unknown_action_goes_through_validator 21 Piece_I
              {| tenant_id := "player-001"; execution_id := "game-session-001";
                 game_state := fresh_state; policy_validator := default_policies |}
              LINE_CLEAR empty_world eq_refl) as (w' & r & Hrun & Hcalls & Hcase).
  exists w', r. split; [exact Hrun|]. split; [exact Hcalls|].
  vm_compute in Hcase. exact Hcase.
Defined.

(** * Further facts about the engine *)

(** ** Rotation of the block offsets *)

Lemma rotate_blocks_four l :
  rotate_blocks (rotate_blocks (rotate_blocks (rotate_blocks l))) = l.
Proof.
  unfold rotate_blocks. rewrite <- !list_fmap_compose.
  rewrite <- (list_fmap_id l) at 2. apply list_fmap_ext.
  intros _ [dr dc] _. simpl. by rewrite !Z.opp_involutive.
Qed.

Lemma get_piece_blocks_add_turns piece (n q : nat) :
  Nat.iter (n + 4 * q) rotate_blocks (SHAPES piece)
  = Nat.iter n rotate_blocks (SHAPES piece).
Proof.
  induction q as [|q IH].
  - by rewrite Nat.mul_0_r, Nat.add_0_r.
  - replace (n + 4 * S q)%nat with (4 + (n + 4 * q))%nat by lia.
    rewrite (Nat.iter_add 4), IH. apply rotate_blocks_four.
Qed.

(** X1: the offsets of a piece depend on a non-negative rotation index only
    through its remainder modulo 4, which is what [rotate] stores. *)
Theorem get_piece_blocks_mod_4 piece rotation :
  0 ≤ rotation →
  get_piece_blocks piece rotation = get_piece_blocks piece (rotation `mod` 4)
  ∧ length (get_piece_blocks piece rotation) = 4%nat.
Proof.
  intros Hr. split; [|apply get_piece_blocks_length].
  unfold get_piece_blocks.
  pose proof (Z.div_mod rotation 4 ltac:(lia)) as Hdm.
  pose proof (Z.mod_pos_bound rotation 4 ltac:(lia)) as Hm.
  assert (0 ≤ rotation `div` 4) as Hq by (apply Z.div_pos; lia).
  replace (Z.to_nat rotation)
    with (Z.to_nat (rotation `mod` 4) + 4 * Z.to_nat (rotation `div` 4))%nat by lia.
  apply get_piece_blocks_add_turns.
Qed.

Lemma get_piece_blocks_mod_4_witness :
  get_piece_blocks Piece_L 7 = get_piece_blocks Piece_L (7 `mod` 4)
  ∧ length (get_piece_blocks Piece_L 7) = 4%nat.
Proof. apply (get_piece_blocks_mod_4 Piece_L 7). lia. Defined.

(** ** Invariants of the engine operations *)

Lemma hard_drop_wf rows cols fuel st st' ev :
  wf_board rows cols (board st) →
  hard_drop rows cols fuel st = Some (Ok (st', ev)) →
  wf_board rows cols (board st').
Proof.
  intros Hwf. unfold hard_drop. destruct (inactive st) eqn:Hact.
  { by intros [= <- _]. }
  apply inactive_false in Hact as [[p Hp] _].
  destruct (drop_loop rows cols fuel st 0) as [r|] eqn:Hloop; [|discriminate].
  simpl. intros [= H]. inv_bind H as [cs d] Hr. subst r.
  apply drop_loop_inv in Hloop as [_ ->].
  destruct (lock_piece_wf rows cols (shift_down st (d - 0)) p Hwf Hp)
    as (m & nb & lev & _ & _ & _ & Hnb & Hlock & _).
  rewrite Hlock in H. simpl in H. by injection H as <- _.
Qed.

Lemma apply_op_wf rows cols fuel op st st' :
  wf_board rows cols (board st) →
  apply_op rows cols fuel op st = Some (Ok st') →
  wf_board rows cols (board st').
Proof.
  intros Hwf. destruct op as [piece|action|clockwise|]; simpl.
  - destruct (spawn_piece_total rows cols piece st Hwf) as (s & e & -> & Hb).
    simpl. intros [= <-]. by rewrite Hb.
  - destruct (move_total rows cols st action Hwf) as (s & e & -> & Hb).
    simpl. by intros [= <-].
  - destruct (rotate_total rows cols st clockwise Hwf) as (s & e & -> & Hb).
    simpl. by intros [= <-].
  - destruct (hard_drop rows cols fuel st) as [[[s e]|x]|] eqn:Hd; simpl; try discriminate.
    intros [= <-]. by eapply hard_drop_wf.
Qed.

(** X5: every engine operation hands back a board of the engine's
    dimensions when it was given one, and so does every sequence of
    operations. *)
Theorem engine_keeps_board_dimensions rows cols fuel ops st sts :
  wf_board rows cols (board st) →
  run_ops rows cols fuel ops st = Some (Ok sts) →
  Forall (fun s => wf_board rows cols (board s)) sts.
Proof.
  revert st sts. induction ops as [|op rest IH]; intros st sts Hwf; simpl.
  { intros [= <-]. constructor. }
  destruct (apply_op rows cols fuel op st) as [[st'|e]|] eqn:Hop; try discriminate.
  pose proof (apply_op_wf rows cols fuel op st st' Hwf Hop) as Hwf'.
  destruct (run_ops rows cols fuel rest st') as [[sts'|e]|] eqn:Hrun; try discriminate.
  intros [= <-]. constructor; [done|]. by eapply IH.
Qed.

Lemma engine_keeps_board_dimensions_witness :
  ∃ sts,
    run_ops 20 10 21 [OpSpawn Piece_S; OpRotate false; OpHardDrop; OpSpawn Piece_I]
      (new_game 20 10) = Some (Ok sts)
    ∧ Forall (fun s => wf_board 20 10 (board s)) sts.
Proof.
  eexists. split; [vm_compute; reflexivity|].
  apply (engine_keeps_board_dimensions 20 10 21
           [OpSpawn Piece_S; OpRotate false; OpHardDrop; OpSpawn Piece_I]
           (new_game 20 10)).
  - split; [reflexivity | vm_compute; repeat constructor].
  - vm_compute. reflexivity.
Defined.

Lemma never_behind_refl st : never_behind st st.
Proof. unfold never_behind. split_and!; (lia || done). Qed.

Lemma never_behind_trans a b c :
  never_behind a b → never_behind b c → never_behind a c.
Proof.
  unfold never_behind. intros (? & ? & ? & Hab) (? & ? & ? & Hbc).
  split_and!; try lia. intros Ha. by apply Hbc, Hab.
Qed.

Lemma lock_piece_never_behind rows cols st st' ev :
  lock_piece rows cols st = Ok (st', ev) → never_behind st st'.
Proof.
  unfold lock_piece. destruct (current_piece st) as [p|]; [|discriminate].
  intros H. inv_bind H as merged Hm. inv_bind H as lines Hl. inv_bind H as nb Hnb.
  injection H as <- _. unfold never_behind. simpl.
  pose proof (points_get_nonneg (Z.of_nat (length lines))).
  split_and!; (lia || done).
Qed.

Lemma shift_down_never_behind st d : never_behind st (shift_down st d).
Proof. unfold never_behind. simpl. split_and!; (lia || done). Qed.

Lemma apply_op_never_behind rows cols fuel op st st' :
  apply_op rows cols fuel op st = Some (Ok st') → never_behind st st'.
Proof.
  destruct op as [piece|action|clockwise|]; simpl.
  - intros [= H]. inv_bind H as [s1 e1] Hop. injection H as <-.
    unfold spawn_piece in Hop. inv_bind Hop as blocked Hb. injection Hop as <- _.
    unfold never_behind. simpl. split_and!; try lia. intros ->. by destruct blocked.
  - intros [= H]. inv_bind H as [s1 e1] Hop. injection H as <-.
    unfold move in Hop. destruct (inactive st).
    { injection Hop as <- _. apply never_behind_refl. }
    destruct (move_target _ _) as [np|];
      [|injection Hop as <- _; apply never_behind_refl].
    inv_bind Hop as blocked Hb. destruct blocked.
    + destruct (decide _); [|injection Hop as <- _; apply never_behind_refl].
      inv_bind Hop as [s2 e2] Hlock. injection Hop as <- _.
      by eapply lock_piece_never_behind.
    + injection Hop as <- _. unfold never_behind. simpl. split_and!; (lia || done).
  - intros [= H]. inv_bind H as [s1 e1] Hop. injection H as <-.
    unfold rotate in Hop. destruct (inactive st).
    { injection Hop as <- _. apply never_behind_refl. }
    inv_bind Hop as blocked Hb.
    destruct blocked; injection Hop as <- _;
      [apply never_behind_refl|].
    unfold never_behind. simpl. split_and!; (lia || done).
  - destruct (hard_drop rows cols fuel st) as [[[s e]|x]|] eqn:Hd; simpl; try discriminate.
    intros [= <-]. unfold hard_drop in Hd. destruct (inactive st).
    { injection Hd as <- _. apply never_behind_refl. }
    destruct (drop_loop rows cols fuel st 0) as [r|] eqn:Hloop; [|discriminate].
    simpl in Hd. injection Hd as Hd. inv_bind Hd as [cs d] Hr. subst r.
    inv_bind Hd as [locked lev] Hlock. injection Hd as <- _.
    apply drop_loop_inv in Hloop as [Hge ->].
    apply lock_piece_never_behind in Hlock.
    eapply never_behind_trans; [apply (shift_down_never_behind st (d - 0))|].
    eapply never_behind_trans; [exact Hlock|].
    unfold never_behind. simpl. split_and!; (lia || done).
Qed.

(** X6: along any sequence of engine operations, from any state, the
    score, the line counter and the move counter never go down and a set
    terminal flag is never cleared. *)
Theorem counters_never_go_back rows cols fuel ops st sts :
  run_ops rows cols fuel ops st = Some (Ok sts) →
  Forall (never_behind st) sts.
Proof.
  revert st sts. induction ops as [|op rest IH]; intros st sts; simpl.
  { intros [= <-]. constructor. }
  destruct (apply_op rows cols fuel op st) as [[st'|e]|] eqn:Hop; try discriminate.
  apply apply_op_never_behind in Hop.
  destruct (run_ops rows cols fuel rest st') as [[sts'|e]|] eqn:Hrun; try discriminate.
  intros [= <-]. constructor; [done|].
  eapply Forall_impl; [by eapply IH|]. simpl. intros s Hs.
  by eapply never_behind_trans.
Qed.

Lemma counters_never_go_back_witness :
  Forall (never_behind fresh_state)
    [with_pos fresh_state (1, 3) 1; with_pos fresh_state (1, 2) 2].
Proof.
  apply (counters_never_go_back 20 10 21 [OpMove MOVE_DOWN; OpMove MOVE_LEFT]
           fresh_state).
  reflexivity.
Defined.

(** ** Moves and rotations that undo each other *)

Lemma check_collision_fields rows cols st1 st2 :
  board st1 = board st2 → current_piece st1 = current_piece st2 →
  current_pos st1 = current_pos st2 → current_rotation st1 = current_rotation st2 →
  check_collision rows cols st1 = check_collision rows cols st2.
Proof. unfold check_collision. by intros -> -> -> ->. Qed.

Lemma move_accepted_inv rows cols st action st1 ev1 :
  action ≠ MOVE_DOWN → move rows cols st action = Ok (st1, Some ev1) →
  ∃ new_pos, move_target (current_pos st) action = Some new_pos
             ∧ inactive st = false
             ∧ st1 = with_pos st new_pos (move_count st + 1).
Proof.
  intros Hne. unfold move. destruct (inactive st); [discriminate|].
  destruct (move_target _ _) as [np|]; [|discriminate].
  intros H. inv_bind H as blocked Hb. destruct blocked.
  - rewrite decide_False in H by done. discriminate.
  - injection H as <- _. by exists np.
Qed.

(** X7: on a position that does not collide, a move left that the engine
    accepts is undone by the move right that follows (and a move right by
    a move left): the second move is accepted too and the state is the
    first one again, with [move_count] two higher. *)
Theorem move_there_and_back rows cols st action back st1 ev1 :
  (action = MOVE_LEFT ∧ back = MOVE_RIGHT) ∨ (action = MOVE_RIGHT ∧ back = MOVE_LEFT) →
  check_collision rows cols st = Ok false →
  move rows cols st action = Ok (st1, Some ev1) →
  ∃ ev2, move rows cols st1 back
         = Ok (with_pos st (current_pos st) (move_count st + 2), Some ev2).
Proof.
  intros Hdir Hfree Hmove.
  destruct (move_accepted_inv rows cols st action st1 ev1) as (np & Hnp & Hact & ->);
    [by destruct Hdir as [[-> _]|[-> _]] | done |].
  unfold move. simpl.
  assert (inactive (with_pos st np (move_count st + 1)) = false) as -> by done.
  destruct (current_pos st) as [r c] eqn:Hpos.
  assert (move_target np back = Some (r, c)) as ->.
  { destruct Hdir as [[-> ->]|[-> ->]]; simpl in *; injection Hnp as <-; simpl;
      do 2 f_equal; lia. }
  rewrite (check_collision_fields rows cols _ st); [|done..|by rewrite Hpos|done].
  rewrite Hfree. simpl. eexists. do 2 f_equal.
  unfold with_pos. simpl. f_equal. lia.
Qed.

Lemma move_there_and_back_witness :
  ∃ ev2, move 20 10 (with_pos fresh_state (0, 2) 1) MOVE_RIGHT
         = Ok (with_pos fresh_state (current_pos fresh_state)
                 (move_count fresh_state + 2), Some ev2).
Proof.
  apply (move_there_and_back 20 10 fresh_state MOVE_LEFT MOVE_RIGHT
           (with_pos fresh_state (0, 2) 1)
           ({[ "action" := VStr "MOVE_LEFT"; "from" := VPos (0, 3);
               "to" := VPos (0, 2); "move_number" := VInt 1 ]} : payload)).
  - left. split; reflexivity.
  - reflexivity.
  - reflexivity.
Defined.

Lemma rotate_accepted_inv rows cols st clockwise st1 ev1 :
  rotate rows cols st clockwise = Ok (st1, Some ev1) →
  inactive st = false
  ∧ st1 = with_rotation st
            ((current_rotation st + (if clockwise then 1 else -1)) `mod` 4)
            (move_count st + 1).
Proof.
  unfold rotate. destruct (inactive st); [discriminate|].
  intros H. inv_bind H as blocked Hb. destruct blocked; [discriminate|].
  by injection H as <- _.
Qed.

(** X8: with the rotation index in [0..3] and a position that does not
    collide, an accepted quarter turn is undone by the opposite turn: the
    second turn is accepted too and the state is the first one again,
    with [move_count] two higher. *)
Theorem rotate_there_and_back rows cols st clockwise st1 ev1 :
  0 ≤ current_rotation st < 4 →
  check_collision rows cols st = Ok false →
  rotate rows cols st clockwise = Ok (st1, Some ev1) →
  ∃ ev2, rotate rows cols st1 (negb clockwise)
         = Ok (with_rotation st (current_rotation st) (move_count st + 2), Some ev2).
Proof.
  intros Hrot Hfree Hturn.
  destruct (rotate_accepted_inv rows cols st clockwise st1 ev1 Hturn) as [Hact ->].
  unfold rotate. simpl.
  assert (inactive (with_rotation st
            ((current_rotation st + (if clockwise then 1 else -1)) `mod` 4)
            (move_count st + 1)) = false) as -> by done.
  assert (((current_rotation st + (if clockwise then 1 else -1)) `mod` 4
           + (if negb clockwise then 1 else -1)) `mod` 4 = current_rotation st) as ->.
  { rewrite Z.add_mod_idemp_l by lia.
    destruct clockwise; simpl; rewrite <- Z.add_assoc; simpl;
      rewrite Z.add_0_r; apply Z.mod_small; lia. }
  rewrite (check_collision_fields rows cols _ st) by done.
  rewrite Hfree. simpl. eexists. do 2 f_equal.
  unfold with_rotation. simpl. f_equal. lia.
Qed.

Lemma rotate_there_and_back_witness :
  ∃ ev2, rotate 20 10 (with_rotation fresh_state 1 1) false
         = Ok (with_rotation fresh_state (current_rotation fresh_state)
                 (move_count fresh_state + 2), Some ev2).
Proof.
  apply (rotate_there_and_back 20 10 fresh_state true
           (with_rotation fresh_state 1 1)
           ({[ "action" := VStr "ROTATE_CW"; "from_rotation" := VInt 0;
               "to_rotation" := VInt 1; "move_number" := VInt 1 ]} : payload)).
  - simpl. lia.
  - reflexivity.
  - reflexivity.
Defined.

(** ** What a collision is *)

Lemma collide_blocks_free_iff rows cols b pos blocks :
  collide_blocks rows cols b pos blocks = Ok false
  ↔ Forall (cell_free rows cols b)
      ((fun blk => (pos.1 + blk.1, pos.2 + blk.2)) <$> blocks).
Proof.
  induction blocks as [|[dr dc] rest IH]; simpl.
  { split; [constructor | done]. }
  rewrite Forall_cons. unfold cell_free at 1. simpl.
  destruct (_ || _) eqn:Hout.
  - split; [discriminate|]. intros [(Hr & Hc & _) _].
    repeat (apply orb_prop in Hout as [Hout|Hout]); lia.
  - repeat (apply orb_false_elim in Hout as [Hout ?]).
    destruct (board_get b (pos.1 + dr) (pos.2 + dc)) as [[x|]|e]; simpl.
    + split; [discriminate|]. by intros [(_ & _ & [=]) _].
    + rewrite IH. split; [|by intros [_ Hrest]]. intros Hrest. split; [|done].
      split_and!; (lia || done).
    + split; [discriminate|]. by intros [(_ & _ & [=]) _].
Qed.

(** X2: the collision test answers "no collision" exactly when every cell
    the piece covers lies on the board and is empty; on a board of the
    engine's dimensions it answers "collision" in every other case. *)
Theorem check_collision_free_iff rows cols st :
  (check_collision rows cols st = Ok false
   ↔ Forall (cell_free rows cols (board st)) (piece_cells st))
  ∧ (wf_board rows cols (board st) →
     (check_collision rows cols st = Ok true
      ↔ ¬ Forall (cell_free rows cols (board st)) (piece_cells st))).
Proof.
  assert (check_collision rows cols st = Ok false
          ↔ Forall (cell_free rows cols (board st)) (piece_cells st)) as Hiff.
  { unfold check_collision, piece_cells. destruct (current_piece st) as [p|].
    - apply collide_blocks_free_iff.
    - split; [constructor | done]. }
  split; [exact Hiff|]. intros Hwf.
  destruct (check_collision_wf rows cols st Hwf) as [[|] Hc]; rewrite Hc in *.
  - split; [|done]. intros _ Hall. apply Hiff in Hall. discriminate.
  - split; [discriminate|]. intros Hn. destruct Hn. by apply Hiff.
Qed.

Lemma check_collision_free_iff_witness :
  check_collision 20 10 two_line_state = Ok true
  ↔ ¬ Forall (cell_free 20 10 (board two_line_state)) (piece_cells two_line_state).
Proof.
  apply (check_collision_free_iff 20 10 two_line_state).
  split; [reflexivity | repeat constructor].
Defined.

(** ** What the merge of [_lock_piece] writes *)

Lemma board_get_set b row col v b' i j :
  board_set b row col v = Ok b' → 0 ≤ row → 0 ≤ col → 0 ≤ i → 0 ≤ j →
  board_get b' i j
  = if bool_decide (i = row ∧ j = col) then Ok v else board_get b i j.
Proof.
  unfold board_set, board_get. intros H Hrow Hcol Hi Hj.
  destruct (b !! Z.to_nat row) as [r|] eqn:Hr; [|discriminate].
  destruct (decide _) as [Hlen|]; [|discriminate]. injection H as <-.
  destruct (decide (i = row)) as [->|Hne].
  - rewrite list_lookup_insert_eq by (by eapply lookup_lt_Some).
    destruct (decide (j = col)) as [->|Hne].
    + rewrite list_lookup_insert_eq by done.
      by rewrite bool_decide_eq_true_2.
    + rewrite list_lookup_insert_ne by lia.
      rewrite bool_decide_eq_false_2 by (intros [_ ?]; done).
      by rewrite Hr.
  - rewrite list_lookup_insert_ne by lia.
    by rewrite bool_decide_eq_false_2 by (intros [? _]; done).
Qed.

Lemma place_blocks_get rows cols tag pos blocks b merged i j :
  place_blocks rows cols tag pos blocks b = Ok merged →
  0 ≤ i < rows → 0 ≤ j < cols →
  board_get merged i j
  = if bool_decide ((i - pos.1, j - pos.2) ∈ blocks)
    then Ok (Some tag) else board_get b i j.
Proof.
  intros Hplace Hi Hj. revert b Hplace.
  induction blocks as [|[dr dc] rest IH]; intros b; cbn [place_blocks].
  { intros [= <-]. case_bool_decide as Hnil; [by apply elem_of_nil in Hnil | done]. }
  destruct (_ && _) eqn:Hin.
  - repeat (apply andb_prop in Hin as [Hin ?]).
    intros Hpl. inv_bind Hpl as b' Hset. rewrite (IH b' Hpl).
    rewrite (board_get_set b _ _ _ b' i j Hset) by lia.
    destruct (decide ((i - pos.1, j - pos.2) ∈ rest)) as [Hrest|Hrest].
    + rewrite !bool_decide_eq_true_2; [done | | done]. by right.
    + rewrite (bool_decide_eq_false_2 _ Hrest).
      destruct (decide (i = pos.1 + dr ∧ j = pos.2 + dc)) as [[-> ->]|Hne].
      * rewrite !bool_decide_eq_true_2; [done | | done].
        replace (pos.1 + dr - pos.1) with dr by lia.
        replace (pos.2 + dc - pos.2) with dc by lia. by left.
      * rewrite (bool_decide_eq_false_2 _ Hne).
        rewrite bool_decide_eq_false_2; [done|].
        intros [[=]|?]%elem_of_cons; [|done]. apply Hne. lia.
  - intros Hpl. rewrite (IH b Hpl).
    destruct (decide ((i - pos.1, j - pos.2) ∈ rest)) as [Hrest|Hrest].
    + rewrite !bool_decide_eq_true_2; [done | | done]. by right.
    + rewrite (bool_decide_eq_false_2 _ Hrest).
      rewrite bool_decide_eq_false_2; [done|].
      intros [[=]|?]%elem_of_cons; [|done].
      assert (pos.1 + dr = i ∧ pos.2 + dc = j) as [<- <-] by lia.
      repeat (apply andb_false_iff in Hin as [Hin|Hin]); lia.
Qed.

(** X3: the merge writes the piece's tag into the cells of the board that
    the piece covers and leaves every other cell of the board as it was;
    blocks outside the board are dropped. *)
Theorem place_blocks_writes_piece_cells rows cols st p merged i j :
  current_piece st = Some p →
  place_blocks rows cols (piece_value p) (current_pos st)
    (get_piece_blocks p (current_rotation st)) (board st) = Ok merged →
  0 ≤ i < rows → 0 ≤ j < cols →
  board_get merged i j
  = if bool_decide ((i, j) ∈ piece_cells st)
    then Ok (Some (piece_value p)) else board_get (board st) i j.
Proof.
  intros Hp Hplace Hi Hj.
  rewrite (place_blocks_get _ _ _ _ _ _ _ i j Hplace Hi Hj).
  unfold piece_cells. rewrite Hp.
  match goal with |- (if bool_decide ?P then _ else _) = (if bool_decide ?Q then _ else _) =>
    assert (P ↔ Q) as Hiff end.
  { rewrite list_elem_of_fmap. split.
    - intros Hin. eexists. split; [|exact Hin]. simpl. f_equal; lia.
    - intros ([dr dc] & [= -> ->] & Hin). simpl.
      replace ((current_pos st).1 + dr - (current_pos st).1) with dr by lia.
      by replace ((current_pos st).2 + dc - (current_pos st).2) with dc by lia. }
  by rewrite (bool_decide_ext _ _ Hiff).
Qed.

Lemma place_blocks_writes_piece_cells_witness :
  board_get (replicate 17 empty_row ++ [marked_row; closed_row; closed_row]) 18 1
  = if bool_decide ((18, 1) ∈ piece_cells two_line_state)
    then Ok (Some (piece_value Piece_O)) else board_get (board two_line_state) 18 1.
Proof.
  apply (place_blocks_writes_piece_cells 20 10 two_line_state Piece_O).
  - reflexivity.
  - reflexivity.
  - lia.
  - lia.
Defined.

(** ** Hard drop against single steps down *)

Lemma moved_down_0 st : moved_down st 0 = st.
Proof.
  destruct st as [b p [r c] rot sc lc go mc]. unfold moved_down, with_pos. simpl.
  by rewrite !Z.add_0_r.
Qed.

Lemma run_ops_cons rows cols fuel op rest st :
  run_ops rows cols fuel (op :: rest) st
  = match apply_op rows cols fuel op st with
    | None => None
    | Some (Raise e) => Some (Raise e)
    | Some (Ok st') =>
        match run_ops rows cols fuel rest st' with
        | None => None
        | Some (Raise e) => Some (Raise e)
        | Some (Ok sts) => Some (Ok (st' :: sts))
        end
    end.
Proof. reflexivity. Qed.

Lemma moves_down_then_lock rows cols fuel (n : nat) st locked ev :
  inactive st = false →
  (∀ i, 1 ≤ i ≤ Z.of_nat n → check_collision rows cols (shift_down st i) = Ok false) →
  check_collision rows cols (shift_down st (Z.of_nat n + 1)) = Ok true →
  lock_piece rows cols (moved_down st n) = Ok (locked, ev) →
  ∃ sts, run_ops rows cols fuel (replicate (S n) (OpMove MOVE_DOWN)) st = Some (Ok sts)
         ∧ last sts = Some locked.
Proof.
  revert st. induction n as [|n IH]; intros st Hact Hfree Hhit Hlock.
  - rewrite moved_down_0 in Hlock. change (Z.of_nat 0 + 1) with 1 in Hhit.
    cbn [replicate run_ops apply_op]. unfold move. rewrite Hact.
    cbn [move_target].
    rewrite (check_collision_fields rows cols _ (shift_down st 1)) by done.
    rewrite Hhit. cbn [bind]. rewrite decide_True by done.
    rewrite Hlock. cbn [bind]. by eexists.
  - change (replicate (S (S n)) (OpMove MOVE_DOWN))
      with (OpMove MOVE_DOWN :: replicate (S n) (OpMove MOVE_DOWN)).
    rewrite run_ops_cons. cbn [apply_op]. unfold move at 1. rewrite Hact.
    cbn [move_target].
    rewrite (check_collision_fields rows cols _ (shift_down st 1)) by done.
    rewrite (Hfree 1) by lia. cbn [bind].
    set (st1 := with_pos st ((current_pos st).1 + 1, (current_pos st).2)
                  (move_count st + 1)).
    destruct (IH st1) as (sts & Hrun & Hlast).
    + done.
    + intros i Hi.
      rewrite (check_collision_fields rows cols _ (shift_down st (1 + i)));
        [apply Hfree; lia | done | done | | done].
      simpl. f_equal. lia.
    + rewrite (check_collision_fields rows cols _ (shift_down st (Z.of_nat (S n) + 1)));
        [done | done | done | | done].
      simpl. f_equal. lia.
    + replace (moved_down st1 n) with (moved_down st (S n)); [done|].
      unfold moved_down, st1, with_pos. simpl. f_equal; [f_equal|]; lia.
    + fold st1. rewrite Hrun. eexists. split; [done|].
      rewrite last_cons. by rewrite Hlast.
Qed.

(** X9: a hard drop leaves the same board and the same line counter as
    moving the piece down step by step until it locks; the hard drop adds
    two points per row and leaves [move_count] as it was, the single
    steps count one move per row and earn no bonus. *)
Theorem hard_drop_agrees_with_moves_down rows cols fuel st p :
  wf_board rows cols (board st) → current_piece st = Some p → game_over st = false →
  (Z.to_nat rows < fuel)%nat →
  ∃ (n : nat) st_h ev_h sts st_m,
    hard_drop rows cols fuel st = Some (Ok (st_h, Some ev_h))
    ∧ run_ops rows cols fuel (replicate (S n) (OpMove MOVE_DOWN)) st = Some (Ok sts)
    ∧ last sts = Some st_m
    ∧ board st_h = board st_m
    ∧ current_piece st_h = None ∧ current_piece st_m = None
    ∧ lines_cleared st_h = lines_cleared st_m
    ∧ score st_h = score st_m + Z.of_nat n * 2
    ∧ move_count st_h = move_count st
    ∧ move_count st_m = move_count st + Z.of_nat n.
Proof.
  intros Hwf Hp Hgo Hfuel.
  assert (inactive st = false) as Hact by (apply inactive_false; eauto).
  destruct (drop_distance_exists rows cols st p Hwf Hp) as (d & Hd & Hfree & Hhit).
  destruct (lock_piece_wf rows cols (shift_down st d) p Hwf Hp)
    as (m1 & nb1 & ev1 & Hm1 & _ & Hc1 & _ & Hlock1 & _).
  destruct (lock_piece_wf rows cols (moved_down st (Z.to_nat d)) p Hwf Hp)
    as (m2 & nb2 & ev2 & Hm2 & _ & Hc2 & _ & Hlock2 & _).
  simpl in Hm1, Hm2. rewrite Z2Nat.id in Hm2 by lia.
  rewrite Hm1 in Hm2. injection Hm2 as <-.
  rewrite Hc1 in Hc2. injection Hc2 as <-.
  assert (∀ i, 1 ≤ i ≤ Z.of_nat (Z.to_nat d) →
               check_collision rows cols (shift_down st i) = Ok false) as Hfree'.
  { intros i Hi. apply Hfree. lia. }
  assert (check_collision rows cols (shift_down st (Z.of_nat (Z.to_nat d) + 1))
          = Ok true) as Hhit'.
  { by rewrite Z2Nat.id by lia. }
  destruct (moves_down_then_lock rows cols fuel (Z.to_nat d) st _ _
              Hact Hfree' Hhit' Hlock2) as (sts & Hrun & Hlast).
  exists (Z.to_nat d). do 2 eexists. exists sts. eexists.
  split.
  { unfold hard_drop. rewrite Hact.
    rewrite (drop_loop_found rows cols fuel st 0 d) by (try done; lia).
    simpl. rewrite Hlock1. simpl. reflexivity. }
  split; [exact Hrun|]. split; [exact Hlast|].
  simpl. rewrite Z2Nat.id by lia. split_and!; (lia || done).
Qed.

Lemma hard_drop_agrees_with_moves_down_witness :
  ∃ (n : nat) st_h ev_h sts st_m,
    hard_drop 20 10 21 fresh_state = Some (Ok (st_h, Some ev_h))
    ∧ run_ops 20 10 21 (replicate (S n) (OpMove MOVE_DOWN)) fresh_state = Some (Ok sts)
    ∧ last sts = Some st_m
    ∧ board st_h = board st_m
    ∧ current_piece st_h = None ∧ current_piece st_m = None
    ∧ lines_cleared st_h = lines_cleared st_m
    ∧ score st_h = score st_m + Z.of_nat n * 2
    ∧ move_count st_h = move_count fresh_state
    ∧ move_count st_m = move_count fresh_state + Z.of_nat n.
Proof.
  apply (hard_drop_agrees_with_moves_down 20 10 21 fresh_state Piece_T).
  - split; [reflexivity | vm_compute; repeat constructor].
  - reflexivity.
  - reflexivity.
  - vm_compute. lia.
Defined.

(** ** Locks that complete at most one row, and the validator's table *)

Lemma lock_piece_board_at_most_one_line_witness :
  ∃ merged st' ev,
    place_blocks 20 10 (piece_value Piece_T) (current_pos fresh_state)
      (get_piece_blocks Piece_T (current_rotation fresh_state)) (board fresh_state)
    = Ok merged
    ∧ lock_piece 20 10 fresh_state = Ok (st', ev)
    ∧ (full_row_count merged ≤ 1 → board st' = remove_full_rows 10 merged).
Proof.
  apply (lock_piece_board_at_most_one_line 20 10 fresh_state Piece_T).
  - split; [reflexivity | vm_compute; repeat constructor].
  - reflexivity.
Defined.

Lemma points_tables_agree k : points_get k = expected_points_get k.
Proof. reflexivity. Qed.

Lemma validate_line_clear_matching policies lines history :
  numeric_history history →
  ∃ r, validate_line_clear policies lines (expected_points_get lines) history = Ok r
       ∧ approved r = true.
Proof.
  intros Hnum. unfold validate_line_clear.
  rewrite bool_decide_eq_false_2 by (intros H; by apply H).
  destruct (recent_clears_loop_numeric (reverse history) 5 [])
    as (recent & Hrecent & Hnum'); [by apply Forall_reverse | constructor |].
  unfold get_recent_line_clears. rewrite Hrecent. simpl.
  destruct (3 <=? _); [|by eexists].
  destruct (sum_points_numeric recent 0 Hnum') as [total ->]. simpl.
  destruct (_ <? _); by eexists.
Qed.

(** X10: the numbers the engine writes into a lock event always pass the
    validator's scoring check: with a history whose numeric fields hold
    numbers, [validate_line_clear] approves them. *)
Theorem lock_event_passes_scoring_check rows cols st p policies history :
  wf_board rows cols (board st) → current_piece st = Some p →
  numeric_history history →
  ∃ st' ev lines points r,
    lock_piece rows cols st = Ok (st', ev)
    ∧ payload_int ev "lines_cleared" = Ok lines
    ∧ payload_int ev "points_earned" = Ok points
    ∧ validate_line_clear policies lines points history = Ok r
    ∧ approved r = true.
Proof.
  intros Hwf Hp Hnum.
  destruct (lock_piece_wf rows cols st p Hwf Hp)
    as (merged & nb & ev & _ & _ & _ & _ & Hlock & _ & Hl & Hpts).
  destruct (validate_line_clear_matching policies (full_row_count merged) history Hnum)
    as (r & Hr & Happ).
  do 2 eexists. exists (full_row_count merged), (points_get (full_row_count merged)), r.
  split; [exact Hlock|]. unfold payload_int. rewrite Hl, Hpts.
  split; [done|]. split; [done|]. by rewrite points_tables_agree.
Qed.

Lemma lock_event_passes_scoring_check_witness :
  ∃ st' ev lines points r,
    lock_piece 20 10 two_line_state = Ok (st', ev)
    ∧ payload_int ev "lines_cleared" = Ok lines
    ∧ payload_int ev "points_earned" = Ok points
    ∧ validate_line_clear arcade_mode lines points [] = Ok r
    ∧ approved r = true.
Proof.
  apply (lock_event_passes_scoring_check 20 10 two_line_state Piece_O arcade_mode []).
  - split; [reflexivity | repeat constructor].
  - reflexivity.
  - constructor.
Defined.

(** * Further facts about the policy validator *)

(** ** The first action of a session *)

(** X11: with an empty history every action is approved, provided the three
    limits that an empty history could already reach are positive. *)
Theorem validate_move_empty_history policies action current_state :
  0 < max_moves_per_piece policies →
  0 < max_consecutive_rotations policies →
  0 < max_same_action_streak policies →
  validate_move policies action current_state [] = Ok approve.
Proof.
  intros H1 H2 H3. unfold validate_move.
  change (count_moves_for_current_piece []) with 0.
  change (count_consecutive_actions [] ["ROTATE_CW"; "ROTATE_CCW"]%string) with 0.
  change (count_consecutive_actions [] [action]) with 0.
  rewrite !(bool_decide_eq_false_2 (_ ≤ 0)) by lia.
  by rewrite !andb_false_r.
Qed.

Lemma validate_move_empty_history_witness :
  validate_move competitive_mode "HARD_DROP" ∅ [] = Ok approve.
Proof.
  apply (validate_move_empty_history competitive_mode "HARD_DROP" ∅);
    simpl; lia.
Defined.

(** ** The move counter of the current piece *)

Lemma count_moves_loop_acc events acc k :
  count_moves_loop events (acc + k) = count_moves_loop events acc + k.
Proof.
  revert acc. induction events as [|e rest IH]; intros acc; simpl; [done|].
  case_bool_decide; [done|].
  destruct (value_in _ _); [|apply IH].
  replace (acc + k + 1) with (acc + 1 + k) by lia. apply IH.
Qed.

(** X12: appending a spawn event resets the count of moves of the current
    piece to 0; appending a move or rotation event raises it by one;
    any other event, a hard drop or a lock among them, leaves it as it
    was. *)
Theorem count_moves_after_append history event :
  count_moves_for_current_piece (history ++ [event])
  = if bool_decide (get_action event = VStr "SPAWN_PIECE") then 0
    else count_moves_for_current_piece history
         + (if value_in (get_action event) MOVE_ACTIONS then 1 else 0).
Proof.
  unfold count_moves_for_current_piece. rewrite reverse_snoc. simpl.
  case_bool_decide; [done|].
  destruct (value_in _ _); [|lia].
  apply (count_moves_loop_acc (reverse history) 0 1).
Qed.

Lemma count_moves_loop_bounds events acc :
  acc ≤ count_moves_loop events acc ≤ acc + Z.of_nat (length events).
Proof.
  revert acc. induction events as [|e rest IH]; intros acc; simpl; [lia|].
  case_bool_decide; [lia|].
  destruct (value_in _ _).
  - specialize (IH (acc + 1)). lia.
  - specialize (IH acc). lia.
Qed.

(** ** Streaks of the same action *)

Lemma count_consecutive_loop_ge events actions acc :
  acc ≤ count_consecutive_loop events actions acc.
Proof.
  revert acc. induction events as [|e rest IH]; intros acc; simpl; [lia|].
  destruct (value_in _ _); [|lia]. specialize (IH (acc + 1)). lia.
Qed.

Lemma count_consecutive_loop_run run rest actions acc :
  Forall (fun e => value_in (get_action e) actions = true) run →
  count_consecutive_loop (run ++ rest) actions acc
  = count_consecutive_loop rest actions (acc + Z.of_nat (length run)).
Proof.
  intros Hrun. revert acc. induction Hrun as [|e run He Hrun IH]; intros acc; simpl.
  { by rewrite Z.add_0_r. }
  rewrite He, IH. f_equal. lia.
Qed.

Lemma count_consecutive_actions_tail history tail actions :
  Forall (fun e => value_in (get_action e) actions = true) tail →
  Z.of_nat (length tail) ≤ count_consecutive_actions (history ++ tail) actions.
Proof.
  intros Htail. unfold count_consecutive_actions.
  rewrite reverse_app, count_consecutive_loop_run by (by apply Forall_reverse).
  rewrite length_reverse.
  pose proof (count_consecutive_loop_ge (reverse history) actions
                (0 + Z.of_nat (length tail))). lia.
Qed.

(** X13: when the history ends with at least [max_same_action_streak]
    events of the horizontal move that is proposed again, and the move
    limit of the piece is not reached, the move is rejected with
    penalty 10. *)
Theorem validate_move_rejects_streak policies action current_state history tail :
  action = "MOVE_LEFT"%string ∨ action = "MOVE_RIGHT"%string →
  Forall (fun e => get_action e = VStr action) tail →
  max_same_action_streak policies ≤ Z.of_nat (length tail) →
  count_moves_for_current_piece (history ++ tail) < max_moves_per_piece policies →
  ∃ why, validate_move policies action current_state (history ++ tail)
         = Ok (reject why 10).
Proof.
  intros Hact Htail Hmax Hmoves. unfold validate_move.
  rewrite bool_decide_eq_false_2 by lia.
  assert (bool_decide (action ∈ ["ROTATE_CW"; "ROTATE_CCW"]%string) = false) as ->.
  { apply bool_decide_eq_false_2. intros Hin.
    apply elem_of_cons in Hin as [Heq | Hin].
    { subst action. by destruct Hact. }
    apply elem_of_cons in Hin as [Heq | Hin].
    { subst action. by destruct Hact. }
    by apply elem_of_nil in Hin. }
  cbn [andb].
  assert (bool_decide (action ∈ ["MOVE_LEFT"; "MOVE_RIGHT"]%string) = true) as ->.
  { apply bool_decide_eq_true_2. destruct Hact as [-> | ->]; [by left | by right; left]. }
  assert (Z.of_nat (length tail)
          ≤ count_consecutive_actions (history ++ tail) [action]) as Hcount.
  { apply count_consecutive_actions_tail.
    eapply Forall_impl; [exact Htail|]. simpl. intros e ->.
    apply bool_decide_eq_true_2. simpl. by left. }
  rewrite bool_decide_eq_true_2 by lia. cbn [andb]. by eexists.
Qed.

Lemma validate_move_rejects_streak_witness :
  ∃ why, validate_move arcade_mode "MOVE_LEFT" ∅
           ([action_event "SPAWN_PIECE"]
            ++ [action_event "MOVE_LEFT"; action_event "MOVE_LEFT";
                action_event "MOVE_LEFT"])
         = Ok (reject why 10).
Proof.
  apply (validate_move_rejects_streak arcade_mode "MOVE_LEFT" ∅
           [action_event "SPAWN_PIECE"]
           [action_event "MOVE_LEFT"; action_event "MOVE_LEFT";
            action_event "MOVE_LEFT"]).
  - left. reflexivity.
  - repeat constructor.
  - vm_compute. discriminate.
  - vm_compute. reflexivity.
Defined.

(** ** The shape of the validator's answers *)

(** X14: an answer of [validate_move] is either the plain approval or a
    rejection that carries a reason, no warning, and one of the four
    penalties 50, 20, 10 and 15. *)
Theorem validate_move_answer_shape policies action current_state history r :
  validate_move policies action current_state history = Ok r →
  r = approve
  ∨ (approved r = false ∧ is_Some (reason r) ∧ warning r = None
     ∧ (penalty_points r = 50 ∨ penalty_points r = 20
        ∨ penalty_points r = 10 ∨ penalty_points r = 15)).
Proof.
  unfold validate_move.
  destruct (bool_decide (_ ≤ count_moves_for_current_piece _)).
  { intros [= <-]. right. simpl. split_and!; eauto. }
  destruct (_ && _).
  { intros [= <-]. right. simpl. split_and!; eauto. }
  destruct (_ && _).
  { intros [= <-]. right. simpl. split_and!; eauto. }
  intros H. inv_bind H as backtrack Hb. destruct backtrack.
  - inv_bind H as n Hn. destruct (bool_decide _); injection H as <-.
    + right. simpl. split_and!; eauto.
    + by left.
  - injection H as <-. by left.
Qed.

Lemma validate_move_answer_shape_witness :
  reject "Backtrack limit exceeded (0)" 15 = approve
  ∨ (approved (reject "Backtrack limit exceeded (0)" 15) = false
     ∧ is_Some (reason (reject "Backtrack limit exceeded (0)" 15))
     ∧ warning (reject "Backtrack limit exceeded (0)" 15) = None
     ∧ (penalty_points (reject "Backtrack limit exceeded (0)" 15) = 50
        ∨ penalty_points (reject "Backtrack limit exceeded (0)" 15) = 20
        ∨ penalty_points (reject "Backtrack limit exceeded (0)" 15) = 10
        ∨ penalty_points (reject "Backtrack limit exceeded (0)" 15) = 15)).
Proof.
  apply (validate_move_answer_shape competitive_mode "MOVE_RIGHT" ∅
           [action_event "MOVE_LEFT"]).
  vm_compute. reflexivity.
Defined.

(** ** Backtracks *)





Lemma list_index_negative {A} (l : list A) (k : Z) :
  1 ≤ k ≤ Z.of_nat (length l) → ∃ x, list_index l (- k) = Ok x ∧ x ∈ l.
Proof.
  intros Hk. unfold list_index.
  rewrite (proj2 (Z.ltb_lt (- k) 0)) by lia.
  rewrite (proj2 (Z.leb_le _ _)), (proj2 (Z.ltb_lt _ _)) by lia. cbn [andb].
  destruct (lookup_lt_is_Some_2 l (Z.to_nat (Z.of_nat (length l) + - k))) as [x Hx];
    [lia|].
  rewrite Hx. exists x. split; [done|]. by eapply list_elem_of_lookup_2.
Qed.

Lemma dict_get_hashable d v :
  (∀ l, v ≠ VList l) → ∃ r, dict_get d v = Ok r.
Proof. intros Hv. destruct v; simpl; try by eexists. by destruct (Hv l). Qed.

Lemma backtrack_loop_bounds history idx acc :
  hashable_actions history →
  Forall (fun i => 1 ≤ i < Z.of_nat (length history)) idx →
  ∃ n, backtrack_loop history idx acc = Ok n
       ∧ acc ≤ n ≤ acc + Z.of_nat (length idx).
Proof.
  intros Hhash Hidx. revert acc.
  induction Hidx as [|i idx Hi Hidx IH]; intros acc; simpl.
  { exists acc. split; [done|lia]. }
  unfold backtrack_step.
  replace (- i - 1) with (- (i + 1)) by lia.
  destruct (list_index_negative history (i + 1)) as (prev & -> & Hprev); [lia|].
  destruct (list_index_negative history i) as (curr & -> & Hcurr); [lia|].
  cbn [bind].
  destruct (dict_get_hashable opposites_moves (get_action prev)) as [opp ->].
  { unfold hashable_actions in Hhash. rewrite Forall_forall in Hhash. by apply Hhash. }
  cbn [bind]. destruct (bool_decide _).
  - destruct (IH (acc + 1)) as (n & -> & Hn). exists n. split; [done|lia].
  - destruct (IH acc) as (n & -> & Hn). exists n. split; [done|lia].
Qed.

Lemma count_backtrack_moves_total history :
  hashable_actions history →
  ∃ n, count_backtrack_moves history = Ok n ∧ 0 ≤ n ≤ 19.
Proof.
  intros Hhash. unfold count_backtrack_moves.
  destruct (backtrack_loop_bounds history
              (range_from 1 (Z.min (Z.of_nat (length history)) 20)) 0 Hhash)
    as (n & Hn & Hb).
  - unfold range_from, range. apply Forall_fmap, Forall_fmap, Forall_forall.
    intros k Hk%elem_of_seq. simpl. lia.
  - exists n. split; [done|].
    unfold range_from, range in Hb. rewrite !length_fmap, length_seq in Hb. lia.
Qed.

(** X16: on a history whose actions can be looked up, the backtrack count
    is returned and lies between 0 and 19, so a limit of 20 or more can
    never be reached. *)
Theorem count_backtrack_moves_bounds history :
  hashable_actions history →
  ∃ n, count_backtrack_moves history = Ok n ∧ 0 ≤ n ≤ 19.
Proof. apply count_backtrack_moves_total. Qed.

Lemma count_backtrack_moves_bounds_witness :
  ∃ n, count_backtrack_moves rotation_history = Ok n ∧ 0 ≤ n ≤ 19.
Proof.
  apply (count_backtrack_moves_bounds rotation_history).
  repeat constructor; intros l; vm_compute; discriminate.
Defined.

(** X17: with a backtrack limit of 0, as in competitive mode, every action
    that undoes the last one is rejected with penalty 15 once the first
    three checks have passed. *)
Theorem validate_move_zero_backtrack_limit policies action current_state history :
  max_backtrack_moves policies ≤ 0 →
  hashable_actions history →
  count_moves_for_current_piece history < max_moves_per_piece policies →
  (action ∈ ["ROTATE_CW"; "ROTATE_CCW"]%string →
   count_consecutive_actions history ["ROTATE_CW"; "ROTATE_CCW"]%string
   < max_consecutive_rotations policies) →
  (action ∈ ["MOVE_LEFT"; "MOVE_RIGHT"]%string →
   count_consecutive_actions history [action] < max_same_action_streak policies) →
  is_backtrack_move action history = Ok true →
  ∃ why, validate_move policies action current_state history = Ok (reject why 15).
Proof.
  intros Hmax Hhash H1 H2 H3 Hb.
  destruct (count_backtrack_moves_total history Hhash) as (n & Hn & Hbound).
  rewrite (validate_move_backtrack_gate policies action current_state history
             true n H1 H2 H3 Hb Hn).
  cbn [andb]. rewrite bool_decide_eq_true_2 by lia. by eexists.
Qed.

Lemma validate_move_zero_backtrack_limit_witness :
  ∃ why, validate_move competitive_mode "ROTATE_CCW" ∅
           [action_event "SPAWN_PIECE"; action_event "ROTATE_CW"]
         = Ok (reject why 15).
Proof.
  apply (validate_move_zero_backtrack_limit competitive_mode "ROTATE_CCW" ∅
           [action_event "SPAWN_PIECE"; action_event "ROTATE_CW"]).
  - simpl. lia.
  - repeat constructor; intros l; vm_compute; discriminate.
  - vm_compute. reflexivity.
  - intros _. vm_compute. reflexivity.
  - intros _. vm_compute. reflexivity.
  - vm_compute. reflexivity.
Defined.

(** ** Recent line clears *)

Lemma recent_clears_loop_spec events limit clears r :
  Z.of_nat (length clears) < limit →
  recent_clears_loop events limit clears = Ok r →
  ∃ extra, r = clears ++ extra
           ∧ extra `sublist_of` events
           ∧ Z.of_nat (length r) ≤ limit
           ∧ Forall is_line_clear_event extra.
Proof.
  revert clears. induction events as [|e rest IH]; intros clears Hlen; simpl.
  { intros [= <-]. exists []. rewrite app_nil_r. split_and!; try done; lia. }
  intros H. inv_bind H as hit Hhit.
  assert (hit = true → is_line_clear_event e) as Hclear.
  { intros ->. unfold is_line_clear_event. case_bool_decide as Hact; [by left|].
    right. inv_bind Hhit as n Hn. injection Hhit as Hpos.
    exists n. split; [done|]. by apply Z.ltb_lt. }
  destruct hit.
  - destruct (limit <=? _) eqn:Hfull.
    + injection H as <-. exists [e]. rewrite length_app. simpl.
      split_and!; [done | by apply sublist_skip, sublist_nil_l | lia
                   | by constructor; [apply Hclear|]].
    + apply Z.leb_gt in Hfull.
      destruct (IH (clears ++ [e]) Hfull H) as (extra & -> & Hsub & Hle & Hall).
      exists (e :: extra). rewrite <- app_assoc. simpl.
      split_and!; [done | by apply sublist_skip | by rewrite <- app_assoc in Hle
                   | by constructor; [apply Hclear|]].
  - destruct (IH clears Hlen H) as (extra & -> & Hsub & Hle & Hall).
    exists extra. split_and!; [done | by apply sublist_cons | done | done].
Qed.

(** X18: for a limit of at least 1, [_get_recent_line_clears] returns at
    most [limit] entries; they are line-clear entries of the history,
    the newest first. *)
Theorem get_recent_line_clears_newest_first history limit r :
  1 ≤ limit →
  get_recent_line_clears history limit = Ok r →
  Z.of_nat (length r) ≤ limit
  ∧ r `sublist_of` reverse history
  ∧ Forall is_line_clear_event r.
Proof.
  intros Hlimit H. unfold get_recent_line_clears in H.
  destruct (recent_clears_loop_spec (reverse history) limit [] r) as
    (extra & -> & Hsub & Hle & Hall); [simpl; lia | done |].
  by simpl in *.
Qed.

Lemma get_recent_line_clears_newest_first_witness :
  Z.of_nat (length [({[ "lines_cleared" := VInt 2 ]} : payload)]) ≤ 1
  ∧ [({[ "lines_cleared" := VInt 2 ]} : payload)]
    `sublist_of` reverse [({[ "lines_cleared" := VInt 1 ]} : payload);
                          action_event "MOVE_LEFT";
                          ({[ "lines_cleared" := VInt 2 ]} : payload)]
  ∧ Forall is_line_clear_event [({[ "lines_cleared" := VInt 2 ]} : payload)].
Proof.
  apply (get_recent_line_clears_newest_first
           [({[ "lines_cleared" := VInt 1 ]} : payload);
            action_event "MOVE_LEFT";
            ({[ "lines_cleared" := VInt 2 ]} : payload)] 1).
  - lia.
  - reflexivity.
Defined.

(** ** Modes *)

(** X19: the three known modes install their own limits, and every other
    mode name installs the arcade limits. *)
Theorem get_policy_validator_fallback mode :
  get_policy_validator "arcade_mode" = arcade_mode
  ∧ get_policy_validator "casual_mode" = casual_mode
  ∧ get_policy_validator "competitive_mode" = competitive_mode
  ∧ (mode ≠ "arcade_mode"%string → mode ≠ "casual_mode"%string →
     mode ≠ "competitive_mode"%string →
     get_policy_validator mode = arcade_mode).
Proof.
  split_and!; try reflexivity.
  intros H1 H2 H3. unfold get_policy_validator, TENANT_POLICIES.
  by rewrite !lookup_insert_ne, lookup_singleton_ne by done.
Qed.

Lemma get_policy_validator_fallback_witness :
  get_policy_validator "zen_mode" = arcade_mode.
Proof.
  apply (get_policy_validator_fallback "zen_mode"); discriminate.
Defined.

(** * Further facts about the agent loop *)

Lemma apply_game_logic_reply fuel st a :
  player_action a = true →
  apply_game_logic fuel st a
  = Some (do! _ := record_call (engine_call a) in lift_fuel (engine_reply fuel st a)).
Proof. by destruct a. Qed.

(** The first two steps of [execute_action] and the call of the engine. *)
Lemma execute_action_to_engine fuel next_piece ex a w pr st' ev :
  let sid := (tenant_id ex, execution_id ex) in
  let history := event_payload <$> session_log w sid in
  player_action a = true →
  validate_move (policy_validator ex) (action_value a)
    (state_snapshot (game_state ex)) history = Ok pr →
  approved pr = true →
  engine_reply fuel (game_state ex) a = Some (Ok (st', ev)) →
  execute_action fuel next_piece ex a w
  = (match ev with
     | None => ret (ex, invalid_move_result, None)
     | Some event_payload =>
         if bool_decide (get_action event_payload = VStr "PIECE_LOCKED") then
           do! lines := lift (payload_int event_payload "lines_cleared") in
           do! points := lift (payload_int event_payload "points_earned") in
           do! _ := record_call (CallValidateLineClear lines points) in
           do! line_clear_result :=
             lift (validate_line_clear (policy_validator ex) lines points history) in
           if negb (approved line_clear_result) then
             do! _ := append_event_safe sid FAILED
                        {[ "stage" := VStr "fraud_detected";
                           "action" := VStr "LINE_CLEAR_FRAUD";
                           "reason" := from_option VStr VNone (reason line_clear_result);
                           "revoked_points" := VInt points ]} in
             ret (with_game_state ex (set_game_over (game_state ex)),
                  line_clear_result, None)
           else commit_event next_piece ex pr st' event_payload
         else commit_event next_piece ex pr st' event_payload
     end)
      {| store := store w;
         calls := calls w ++ [CallGetExecution; CallValidateMove (action_value a);
                              engine_call a] |}.
Proof.
  intros sid history Ha Hval Happ Hreply.
  unfold execute_action, bindM at 1, get_execution. cbn [store calls].
  fold sid. fold (session_log w sid). fold history.
  unfold bindM at 1, record_call at 1. cbn [store calls].
  unfold bindM at 1, lift at 1. rewrite Hval, Happ. cbn [negb].
  rewrite (apply_game_logic_reply fuel _ a Ha).
  unfold bindM at 1. unfold bindM at 1, record_call at 1, lift_fuel at 1.
  cbn [store calls]. rewrite Hreply.
  rewrite <- !app_assoc. cbn [app]. reflexivity.
Qed.

(** ** Moves the engine does not carry out *)

(** X22: when the validator approves a player's action and the engine
    answers with no event (the move is blocked, there is no active piece,
    or the game is over), the reply is "Invalid move (collision)", the
    execution is returned as it was and nothing is written to the log. *)
Theorem invalid_move_writes_nothing fuel next_piece ex a w pr st' :
  player_action a = true →
  validate_move (policy_validator ex) (action_value a)
    (state_snapshot (game_state ex))
    (event_payload <$> session_log w (tenant_id ex, execution_id ex)) = Ok pr →
  approved pr = true →
  engine_reply fuel (game_state ex) a = Some (Ok (st', None)) →
  execute_action fuel next_piece ex a w
  = Some ({| store := store w;
             calls := calls w ++ [CallGetExecution; CallValidateMove (action_value a);
                                  engine_call a] |},
          Ok (ex, invalid_move_result, None)).
Proof.
  intros Ha Hval Happ Hreply.
  by rewrite (execute_action_to_engine fuel next_piece ex a w pr st' None).
Qed.

Lemma invalid_move_writes_nothing_witness :
  execute_action 21 Piece_I wall_execution MOVE_LEFT empty_world
  = Some ({| store := ∅;
             calls := [CallGetExecution; CallValidateMove "MOVE_LEFT";
                       CallEngineMove MOVE_LEFT] |},
          Ok (wall_execution, invalid_move_result, None)).
Proof.
  apply (invalid_move_writes_nothing 21 Piece_I wall_execution MOVE_LEFT empty_world
           approve (with_pos fresh_state (0, 0) 0)).
  - reflexivity.
  - reflexivity.
  - reflexivity.
  - reflexivity.
Defined.

(** ** Events that are written *)

Lemma append_event_safe_open sid tag p w :
  not_finalized w sid →
  append_event_safe sid tag p w
  = Some ({| store := <[sid := session_log w sid ++ [mkEvent tag p]]> (store w);
             calls := calls w ++ [CallAppend tag p] |}, Ok tt).
Proof.
  intros Hopen. unfold append_event_safe. fold (session_log w sid).
  by rewrite bool_decide_eq_false_2.
Qed.

(** X23: when the validator approves a player's action and the engine
    answers with an event that is not a lock (an accepted move or
    rotation, or a hard drop), exactly one RUNNING event is appended to
    the session's log, holding the engine's event and the stage
    "game_action"; the execution takes the engine's state and no spawn
    follows. *)
Theorem accepted_action_appends_one_event fuel next_piece ex a w pr st' ev :
  let sid := (tenant_id ex, execution_id ex) in
  let p := ev ∪ {[ "stage" := VStr "game_action"; "action" := get_action ev ]} in
  player_action a = true →
  validate_move (policy_validator ex) (action_value a)
    (state_snapshot (game_state ex)) (event_payload <$> session_log w sid) = Ok pr →
  approved pr = true →
  engine_reply fuel (game_state ex) a = Some (Ok (st', Some ev)) →
  get_action ev ≠ VStr "PIECE_LOCKED" →
  not_finalized w sid →
  execute_action fuel next_piece ex a w
  = Some ({| store := <[sid := session_log w sid ++ [mkEvent RUNNING p]]> (store w);
             calls := calls w ++ [CallGetExecution; CallValidateMove (action_value a);
                                  engine_call a; CallAppend RUNNING p] |},
          Ok (with_game_state ex st', pr, Some ev)).
Proof.
  intros sid p Ha Hval Happ Hreply Hlock Hopen.
  rewrite (execute_action_to_engine fuel next_piece ex a w pr st' (Some ev))
    by done.
  rewrite bool_decide_eq_false_2 by done.
  unfold commit_event. fold sid. fold p.
  rewrite bool_decide_eq_false_2 by done.
  unfold bindM at 1. rewrite append_event_safe_open by done.
  cbn [store calls]. unfold bindM, ret.
  rewrite <- !app_assoc. cbn [app]. reflexivity.
Qed.

Lemma not_finalized_empty sid : not_finalized empty_world sid.
Proof. unfold not_finalized, session_log. simpl. by intros H%Exists_nil. Qed.

Lemma accepted_action_appends_one_event_witness :
  ∃ w', execute_action 21 Piece_I fresh_execution MOVE_RIGHT empty_world
        = Some (w', Ok (with_game_state fresh_execution (with_pos fresh_state (0, 4) 1),
                        approve,
                        Some ({[ "action" := VStr "MOVE_RIGHT"; "from" := VPos (0, 3);
                                 "to" := VPos (0, 4); "move_number" := VInt 1 ]}
                              : payload))).
Proof.
  eexists.
  apply (accepted_action_appends_one_event 21 Piece_I fresh_execution
           MOVE_RIGHT empty_world approve (with_pos fresh_state (0, 4) 1)
           ({[ "action" := VStr "MOVE_RIGHT"; "from" := VPos (0, 3);
               "to" := VPos (0, 4); "move_number" := VInt 1 ]} : payload)).
  - reflexivity.
  - reflexivity.
  - reflexivity.
  - reflexivity.
  - discriminate.
  - apply not_finalized_empty.
Defined.

(** X24: an approved hard drop of the active piece appends one RUNNING
    event with the action HARD_DROP and hands back a game state without
    an active piece: the piece is locked, and no spawn is called and no
    spawn event is written. *)
Theorem hard_drop_leaves_no_active_piece fuel next_piece ex w pr p :
  let sid := (tenant_id ex, execution_id ex) in
  wf_board engine_rows engine_cols (board (game_state ex)) →
  current_piece (game_state ex) = Some p →
  game_over (game_state ex) = false →
  (20 < fuel)%nat →
  validate_move (policy_validator ex) (action_value HARD_DROP)
    (state_snapshot (game_state ex)) (event_payload <$> session_log w sid) = Ok pr →
  approved pr = true →
  not_finalized w sid →
  ∃ st' ev q,
    execute_action fuel next_piece ex HARD_DROP w
    = Some ({| store := <[sid := session_log w sid ++ [mkEvent RUNNING q]]> (store w);
               calls := calls w ++ [CallGetExecution; CallValidateMove "HARD_DROP";
                                    CallEngineHardDrop; CallAppend RUNNING q] |},
            Ok (with_game_state ex st', pr, Some ev))
    ∧ current_piece st' = None
    ∧ get_action ev = VStr "HARD_DROP"
    ∧ q !! "action" = Some (VStr "HARD_DROP").
Proof.
  intros sid Hwf Hp Hgo Hfuel Hval Happ Hopen.
  assert (inactive (game_state ex) = false) as Hact by (apply inactive_false; eauto).
  destruct (drop_distance_exists engine_rows engine_cols (game_state ex) p Hwf Hp)
    as (d & Hd & Hfree & Hhit).
  destruct (lock_piece_wf engine_rows engine_cols (shift_down (game_state ex) d) p Hwf Hp)
    as (m & nb & lev & _ & _ & _ & _ & Hlock & _).
  assert (∃ st' ev, engine_reply fuel (game_state ex) HARD_DROP = Some (Ok (st', Some ev))
                    ∧ current_piece st' = None
                    ∧ get_action ev = VStr "HARD_DROP") as (st' & ev & Hreply & Hnone & Hev).
  { unfold engine_reply, hard_drop. rewrite Hact.
    rewrite (drop_loop_found engine_rows engine_cols fuel (game_state ex) 0 d);
      [| lia | unfold engine_rows in Hd; lia | done | done].
    simpl. rewrite Hlock. simpl. by do 2 eexists. }
  exists st', ev. eexists.
  rewrite (execute_action_to_engine fuel next_piece ex HARD_DROP w pr st' (Some ev))
    by done.
  rewrite bool_decide_eq_false_2 by (by rewrite Hev).
  unfold commit_event. fold sid.
  rewrite bool_decide_eq_false_2 by (by rewrite Hev).
  unfold bindM at 1. rewrite append_event_safe_open by done.
  cbn [store calls]. unfold bindM, ret.
  rewrite <- !app_assoc. cbn [app]. split; [reflexivity|].
  split; [done|]. split; [done|].
  apply lookup_union_Some_l. unfold get_action in Hev.
  destruct (ev !! "action") as [v|]; simpl in Hev; [by subst | discriminate].
Qed.

Lemma hard_drop_leaves_no_active_piece_witness :
  ∃ st' ev w',
    execute_action 21 Piece_I fresh_execution HARD_DROP empty_world
    = Some (w', Ok (with_game_state fresh_execution st', approve, Some ev))
    ∧ current_piece st' = None
    ∧ get_action ev = VStr "HARD_DROP".
Proof.
  destruct (hard_drop_leaves_no_active_piece 21 Piece_I fresh_execution empty_world
              approve Piece_T) as (st' & ev & q & Hrun & Hnone & Hev & _).
  - split; [reflexivity | vm_compute; repeat constructor].
  - reflexivity.
  - reflexivity.
  - lia.
  - reflexivity.
  - reflexivity.
  - apply not_finalized_empty.
  - exists st', ev. eexists. split; [exact Hrun|]. by split.
Defined.

(** ** The lock by a move down *)

Lemma bindM_ok {A B} (m : M A) (k : A → M B) w w1 a :
  m w = Some (w1, Ok a) → bindM m k w = k a w1.
Proof. unfold bindM. by intros ->. Qed.

Lemma append_event_safe_log sid tag p w log :
  session_log w sid = log →
  ¬ Exists (fun e => event_state e = FINALIZED) log →
  append_event_safe sid tag p w
  = Some ({| store := <[sid := log ++ [mkEvent tag p]]> (store w);
             calls := calls w ++ [CallAppend tag p] |}, Ok tt).
Proof. intros <- Hopen. by apply append_event_safe_open. Qed.



Lemma bindM_lift {A B} (a : A) (k : A → M B) w : bindM (lift (Ok a)) k w = k a w.
Proof. reflexivity. Qed.

Lemma bindM_record {B} c (k : unit → M B) w :
  bindM (record_call c) k w
  = k tt {| store := store w; calls := calls w ++ [c] |}.
Proof. reflexivity. Qed.





(** ** Rejections by the validator *)



(** ** Starting a game *)

Lemma spawn_on_empty_board piece :
  spawn_piece engine_rows engine_cols piece (new_game 20 10)
  = Ok ({| board := board (new_game 20 10);
           current_piece := Some piece;
           current_pos := (0, 3);
           current_rotation := 0;
           score := 0; lines_cleared := 0;
           game_over := false; move_count := 0 |},
        {[ "action" := VStr "SPAWN_PIECE";
           "piece" := VStr (piece_value piece);
           "position" := VPos (0, 3);
           "game_over" := VBool false ]}).
Proof. destruct piece; reflexivity. Qed.

(** X20: [start_game] appends one RUNNING event with the stage
    "game_start", the piece and the mode to the session's log and
    returns an execution on the empty 20 x 10 board with the piece
    active at (0, 3), all counters 0 and the game not over, for each of
    the seven pieces; the validator it installs has the default limits
    50/10/5/3/1000 whatever the mode. *)
Theorem start_game_opens_session tenant mode piece eid w :
  let sid := (tenant, eid) in
  not_finalized w sid →
  ∃ q,
    start_game tenant mode piece eid w
    = Some ({| store := <[sid := session_log w sid ++ [mkEvent RUNNING q]]> (store w);
               calls := calls w ++ [CallEngineSpawn; CallAppend RUNNING q] |},
            Ok {| tenant_id := tenant;
                  execution_id := eid;
                  game_state := {| board := board (new_game 20 10);
                                   current_piece := Some piece;
                                   current_pos := (0, 3);
                                   current_rotation := 0;
                                   score := 0; lines_cleared := 0;
                                   game_over := false; move_count := 0 |};
                  policy_validator := mkPolicies 50 10 5 3 1000 |})
    ∧ q !! "stage" = Some (VStr "game_start")
    ∧ q !! "action" = Some (VStr "SPAWN_PIECE")
    ∧ q !! "piece" = Some (VStr (piece_value piece))
    ∧ q !! "mode" = Some (VStr mode).
Proof.
  intros sid Hopen. unfold start_game.
  rewrite bindM_record, spawn_on_empty_board, bindM_lift.
  unfold dict_item.
  rewrite (lookup_insert_eq (M:=gmap string)), bindM_lift.
  rewrite (lookup_insert_ne (M:=gmap string)) by done.
  rewrite (lookup_insert_eq (M:=gmap string)), bindM_lift.
  do 2 rewrite (lookup_insert_ne (M:=gmap string)) by done.
  rewrite (lookup_insert_eq (M:=gmap string)), bindM_lift.
  erewrite bindM_ok;
    [|by apply (append_event_safe_log _ _ _ _ (session_log w sid))].
  unfold ret. cbn [store calls]. rewrite <- !app_assoc. cbn [app].
  eexists. split; [reflexivity|]. by split_and!.
Qed.

Lemma start_game_opens_session_witness :
  ∃ w' ex,
    start_game "player-001" "competitive_mode" Piece_Z "game-session-001" empty_world
    = Some (w', Ok ex)
    ∧ policy_validator ex = default_policies.
Proof.
  destruct (start_game_opens_session "player-001" "competitive_mode" Piece_Z
              "game-session-001" empty_world) as (q & Hrun & _).
  - apply not_finalized_empty.
  - do 2 eexists. split; [exact Hrun|]. reflexivity.
Defined.

(** ** The log is append-only *)

Lemma log_grows_refl sid w : log_grows sid w w.
Proof. unfold log_grows. by split_and!. Qed.

Lemma log_grows_trans sid w1 w2 w3 :
  log_grows sid w1 w2 → log_grows sid w2 w3 → log_grows sid w1 w3.
Proof.
  intros (H1 & H2 & H3) (H4 & H5 & H6). split_and!.
  - by etrans.
  - intros sid' Hne. by rewrite H5, H2.
  - by etrans.
Qed.

Lemma keeps_ret sid {A} (a : A) : keeps_log sid (ret a).
Proof. intros w w' r [= <- _]. apply log_grows_refl. Qed.

Lemma keeps_lift sid {A} (x : result A) : keeps_log sid (lift x).
Proof. intros w w' r [= <- _]. apply log_grows_refl. Qed.

Lemma keeps_lift_fuel sid {A} (x : option (result A)) : keeps_log sid (lift_fuel x).
Proof.
  intros w w' r. unfold lift_fuel. destruct x; [|discriminate].
  intros [= <- _]. apply log_grows_refl.
Qed.

Lemma keeps_record sid c : keeps_log sid (record_call c).
Proof.
  intros w w' r [= <- _]. unfold log_grows, session_log. simpl.
  split_and!; [done | done | by apply prefix_app_r].
Qed.

Lemma keeps_get sid sid' : keeps_log sid (get_execution sid').
Proof.
  intros w w' r [= <- _]. unfold log_grows, session_log. simpl.
  split_and!; [done | done | by apply prefix_app_r].
Qed.

Lemma keeps_append sid tag p : keeps_log sid (append_event_safe sid tag p).
Proof.
  intros w w' r. unfold append_event_safe. case_bool_decide.
  - intros [= <- _]. unfold log_grows, session_log. simpl.
    split_and!; [done | done | by apply prefix_app_r].
  - intros [= <- _]. unfold log_grows, session_log. simpl.
    split_and!.
    + rewrite lookup_insert_eq. simpl. by apply prefix_app_r.
    + intros sid' Hne. by rewrite lookup_insert_ne.
    + by apply prefix_app_r.
Qed.

Lemma keeps_bind sid {A B} (m : M A) (k : A → M B) :
  keeps_log sid m → (∀ a, keeps_log sid (k a)) → keeps_log sid (bindM m k).
Proof.
  intros Hm Hk w w' r. unfold bindM.
  destruct (m w) as [[w1 [a|e]]|] eqn:Hmw; [| |discriminate].
  - intros Hka. eapply log_grows_trans; [by eapply Hm | by eapply Hk].
  - intros [= <- _]. by eapply Hm.
Qed.

Ltac keeps_step :=
  first
    [ apply keeps_ret | apply keeps_lift | apply keeps_lift_fuel
    | apply keeps_record | apply keeps_get | apply keeps_append
    | apply keeps_bind; [|intros ?]
    | match goal with
      | |- keeps_log _ (if ?b then _ else _) => destruct b
      | |- keeps_log _ (match ?x with _ => _ end) => destruct x eqn:?
      end ].

Lemma keeps_commit_event next_piece ex pr st ev :
  keeps_log (tenant_id ex, execution_id ex) (commit_event next_piece ex pr st ev).
Proof. unfold commit_event, finalize_game. repeat keeps_step. Qed.

Lemma keeps_apply_game_logic sid fuel st a m :
  apply_game_logic fuel st a = Some m → keeps_log sid m.
Proof.
  unfold apply_game_logic. destruct a; intros [= <-]; repeat keeps_step.
Qed.

Lemma keeps_execute_action fuel next_piece ex a :
  keeps_log (tenant_id ex, execution_id ex) (execute_action fuel next_piece ex a).
Proof.
  unfold execute_action. repeat keeps_step.
  all: try apply keeps_commit_event.
  all: by eapply keeps_apply_game_logic.
Qed.

(** X26: whatever [execute_action] does and however it ends, the old log
    of its session is a prefix of the new one, and the logs of all other
    sessions are left as they were. *)
Theorem execute_action_appends_only fuel next_piece ex a w w' r :
  execute_action fuel next_piece ex a w = Some (w', r) →
  session_log w (tenant_id ex, execution_id ex)
    `prefix_of` session_log w' (tenant_id ex, execution_id ex)
  ∧ (∀ sid', sid' ≠ (tenant_id ex, execution_id ex) →
             session_log w' sid' = session_log w sid').
Proof.
  intros Hrun. destruct (keeps_execute_action fuel next_piece ex a w w' r Hrun)
    as (Hpre & Hother & _).
  split; [done|]. intros sid' Hne. unfold session_log. by rewrite Hother.
Qed.


Lemma execute_action_appends_only_witness :
  session_log empty_world (tenant_id wall_execution, execution_id wall_execution)
    `prefix_of`
    session_log
      {| store := ∅;
         calls := [CallGetExecution; CallValidateMove "MOVE_LEFT";
                   CallEngineMove MOVE_LEFT] |}
      (tenant_id wall_execution, execution_id wall_execution)
  ∧ (∀ sid', sid' ≠ (tenant_id wall_execution, execution_id wall_execution) →
             session_log
               {| store := ∅;
                  calls := [CallGetExecution; CallValidateMove "MOVE_LEFT";
                            CallEngineMove MOVE_LEFT] |} sid'
             = session_log empty_world sid').
Proof.
  apply (execute_action_appends_only 21 Piece_I wall_execution MOVE_LEFT empty_world
           _ (Ok (wall_execution, invalid_move_result, None))).
  reflexivity.
Defined.

(** * Facts about the web API *)

(** X27: parsing the value of an action gives the action back, and a
    string that parses to an action is that action's value; every other
    string is refused. *)
Theorem TetrisAction_value_round_trip a s :
  TetrisAction_of_value (action_value a) = Some a
  ∧ (TetrisAction_of_value s = Some a ↔ action_value a = s).
Proof.
  assert (TetrisAction_of_value (action_value a) = Some a) as Hrt by by destruct a.
  split; [exact Hrt|]. split; [|by intros <-].
  unfold TetrisAction_of_value. intros ([i x] & Hfind & ->)%fmap_Some.
  by apply list_find_Some in Hfind as (_ & Hx & _).
Qed.

(** X28: an action on a game that is over, on an unknown game, or with a
    string that names no action is answered by an HTTP error 400 or 404,
    and leaves the table of games and the event store as they were. *)
Theorem game_action_refusal_changes_nothing fuel next_piece request s s' code detail :
  game_action fuel next_piece request s = Some (s', HTTPException code detail) →
  s' = s
  ∧ ((code = 404 ∧ active_games s !! game_id request = None)
     ∨ (code = 400
        ∧ ∃ ex, active_games s !! game_id request = Some ex
                ∧ (game_over (game_state ex) = true
                   ∨ TetrisAction_of_value (action request) = None))).
Proof.
  unfold game_action.
  destruct (active_games s !! game_id request) as [ex|] eqn:Hgame.
  2:{ intros [= <- <- _]. split; [done|]. by left. }
  destruct (game_over (game_state ex)) eqn:Hover.
  { intros [= <- <- _]. split; [done|]. right. split; [done|]. exists ex. eauto. }
  destruct (TetrisAction_of_value (action request)) as [act|] eqn:Hact.
  2:{ intros [= <- <- _]. split; [done|]. right. split; [done|]. exists ex. eauto. }
  destruct (execute_action _ _ _ _ _) as [[w' [[[up pr] ev]|e]]|]; try discriminate.
  by destruct (action_message pr ev).
Qed.

(** X29: once a response reports the game as over, every later action on
    that game is refused with "Game is over" and changes nothing. *)
Theorem game_over_response_is_final fuel next_piece request s s' resp
    fuel' next_piece' action' :
  game_action fuel next_piece request s = Some (s', Response resp) →
  response_game_over resp = true →
  game_action fuel' next_piece' (mkGameActionRequest (game_id request) action') s'
  = Some (s', HTTPException 400 "Game is over").
Proof.
  unfold game_action at 1.
  destruct (active_games s !! game_id request) as [ex|] eqn:Hgame; [|discriminate].
  destruct (game_over (game_state ex)); [discriminate|].
  destruct (TetrisAction_of_value (action request)) as [act|]; [|discriminate].
  destruct (execute_action _ _ _ _ _) as [[w' [[[up pr] ev]|e]]|]; try discriminate.
  destruct (action_message pr ev) as [msg|e]; [|discriminate].
  intros [= <- <-]. cbn [response_game_over]. intros Hover.
  unfold game_action. cbn [active_games game_id].
  by rewrite lookup_insert_eq, Hover.
Qed.

Lemma game_action_refusal_changes_nothing_witness :
  {| active_games := ∅; world := empty_world |}
  = {| active_games := ∅; world := empty_world |}
  ∧ ((404 = 404
      ∧ active_games {| active_games := ∅; world := empty_world |}
          !! game_id (mkGameActionRequest "no-such-game" "MOVE_LEFT") = None)
     ∨ (404 = 400
        ∧ ∃ ex, active_games {| active_games := ∅; world := empty_world |}
                  !! game_id (mkGameActionRequest "no-such-game" "MOVE_LEFT") = Some ex
                ∧ (game_over (game_state ex) = true
                   ∨ TetrisAction_of_value
                       (action (mkGameActionRequest "no-such-game" "MOVE_LEFT")) = None))).
Proof.
  apply (game_action_refusal_changes_nothing 21 Piece_I
           (mkGameActionRequest "no-such-game" "MOVE_LEFT")
           {| active_games := ∅; world := empty_world |} _ 404 "Game not found").
  reflexivity.
Defined.

Lemma game_over_response_is_final_witness :
  ∃ s', game_action 21 Piece_I (mkGameActionRequest "game-1" "MOVE_DOWN") s'
        = Some (s', HTTPException 400 "Game is over").
Proof.
  destruct (game_action 21 Piece_I (mkGameActionRequest "game-1" "MOVE_LEFT")
              {| active_games := {[ "game-1"%string := arcade_execution ]};
                 world := streak_world |})
    as [[s' [resp|code detail|e]]|] eqn:Hcall;
    try (vm_compute in Hcall; discriminate).
  exists s'.
  apply (game_over_response_is_final 21 Piece_I
           (mkGameActionRequest "game-1" "MOVE_LEFT")
           {| active_games := {[ "game-1"%string := arcade_execution ]};
              world := streak_world |} s' resp 21%nat Piece_I "MOVE_DOWN" Hcall).
  vm_compute in Hcall. by injection Hcall as _ <-.
Defined.
